(** * cacheddownloader: a size-bounded, disk-backed download cache

    A shallow embedding of [cached_downloader.go].  The Go struct
    [cachedDownloader] becomes a record, its map [cachedFiles] a [gmap] with
    string keys, the disk the set of names that exist on it, and every
    method a function that passes the downloader and the disk explicitly.
    Whatever the methods obtain from outside (the clock, the order in which
    [range] visits a map, [ioutil.TempFile], the [Downloader], [Seek]) is
    read from an [Oracle].

    The mutex only brackets the bodies of the methods; one call is modelled
    at a time, so taking and releasing it leaves no trace here.  [New],
    which wipes the cache directory and returns a downloader with an empty
    map, is not modelled: every statement starts from a store in being. *)

From stdpp Require Import base gmap sets list strings.

Local Open Scope string_scope.
Local Open Scope Z_scope.

(** ** Machine integers and time *)

(** Go's [int64]: arithmetic wraps around modulo [2^64]. *)
Definition int64_wrap (z : Z) : Z := (z + 2 ^ 63) `mod` 2 ^ 64 - 2 ^ 63.
Definition add64 (a b : Z) : Z := int64_wrap (a + b).
Definition sub64 (a b : Z) : Z := int64_wrap (a - b).

(** [time.Time], as a number of ticks; the zero value of the type is the
    zero [Time]. *)
Definition Time : Type := Z.
Definition Before (t u : Time) : bool := t <? u.

(** ** The data of the program *)

Record CachingInfoType : Type := mkCachingInfo {
  ETag : string;
  LastModified : string
}.

Record CachedFile : Type := mkCachedFile {
  size : Z;
  access : Time;
  cachingInfo : CachingInfoType;
  filePath : string
}.

(** The zero value a Go map yields for a key it does not hold. *)
Definition zeroCachedFile : CachedFile :=
  mkCachedFile 0 0 (mkCachingInfo "" "") "".

Record cachedDownloader : Type := mkCachedDownloader {
  cachedPath : string;
  uncachedPath : string;
  maxSizeInBytes : Z;
  cachedFiles : gmap string CachedFile
}.

(** [c.cachedFiles[k]] *)
Definition index (m : gmap string CachedFile) (k : string) : CachedFile :=
  default zeroCachedFile (m !! k).

Definition with_cachedFiles (c : cachedDownloader)
    (m : gmap string CachedFile) : cachedDownloader :=
  mkCachedDownloader (cachedPath c) (uncachedPath c) (maxSizeInBytes c) m.

(** ** The disk *)

(** The names that exist.  [os_RemoveAll] and [os_Remove] are the removal
    of a name the calling function holds no open file on: it takes the name
    away on every platform, and the source discards whatever error there
    is.  What becomes of a file that is removed while the call still holds
    it open depends on the platform: that is [os_RemoveAll_open] below, and
    the methods that tell the two apart are those of [Held]. *)
Definition Disk : Type := gset string.

Definition os_RemoveAll (p : string) (d : Disk) : Disk := d ∖ {[p]}.
Definition os_Remove (p : string) (d : Disk) : Disk := d ∖ {[p]}.
Definition os_Rename (src dst : string) (d : Disk) : Disk :=
  if decide (src ∈ d) then {[dst]} ∪ (d ∖ {[src]}) else d.
Definition os_Create (p : string) (d : Disk) : Disk := {[p]} ∪ d.
Definition os_Open (p : string) (d : Disk) : bool := bool_decide (p ∈ d).

(** ** The platform *)

Inductive OS : Type := linux | windows.

(** What the program takes from its runtime and from the libraries it
    calls: [runtime.GOOS], [filepath.Join], [filepath.Base] and the
    hexadecimal MD5 digest of [Fetch]. *)
Class Runtime : Type := mkRuntime {
  GOOS : OS;
  filepath_Join : string → string → string;
  filepath_Base : string → string;
  md5_hex : string → string
}.

(** ** The outside world *)

(** The outcome of [Downloader.Download]. *)
Inductive Downloaded : Type :=
  | DownloadFailed
  | DownloadDone (didDownload : bool) (size : Z) (cachingInfo : CachingInfoType).

Record Oracle : Type := mkOracle {
  (** the successive readings of [time.Now()] *)
  time_Now : nat → Time;
  (** the order in which the successive [range] loops visit the map *)
  range : nat → gmap string CachedFile → list (string * CachedFile);
  (** [ioutil.TempFile dir prefix]: the name created, or a failure *)
  ioutil_TempFile : string → string → option string;
  (** [Download] under the validators passed to it *)
  Download : CachingInfoType → Downloaded;
  (** whether the final [Seek(0, 0)] succeeds *)
  Seek : bool
}.

(** The oracle once [n] clock readings and [k] range loops are used up. *)
Definition later (n k : nat) (o : Oracle) : Oracle :=
  mkOracle (λ i, time_Now o (n + i)%nat) (λ i, range o (k + i)%nat)
           (ioutil_TempFile o) (Download o) (Seek o).

(** A [range] visits every entry of the map once, in an order of its own. *)
Definition fair (o : Oracle) : Prop :=
  ∀ n m, range o n m ≡ₚ map_to_list m.

(** ** What [Fetch] hands back *)

(** The function given to [runtime.SetFinalizer], by the data it closes
    over: the untracked file removes its [path]; the tracked one looks its
    [cacheKey] up again first. *)
Inductive Finalizer : Type :=
  | RemoveOnRelease (path : string)
  | RemoveIfStale (cacheKey path : string).

(** The open file returned to the caller. *)
Record Handle : Type := mkHandle {
  name : string;
  finalizer : option Finalizer
}.

Inductive Failure : Type :=
  | TempFileError
  | TransferError
  | OpenError
  | SeekError.

Section Methods.
Context `{Runtime}.

(** ** The entry store *)

Definition pathForCacheKey (c : cachedDownloader) (cacheKey : string) : string :=
  filePath (index (cachedFiles c) cacheKey).

Definition pathForCacheKeyWithLock (c : cachedDownloader) (cacheKey : string) : string :=
  pathForCacheKey c cacheKey.

Definition removeCacheEntryFor (cacheKey : string) (c : cachedDownloader)
    (d : Disk) : cachedDownloader * Disk :=
  let fp := pathForCacheKey c cacheKey in
  let d := if decide (fp ≠ "") then os_Remove fp d else d in
  (with_cachedFiles c (delete cacheKey (cachedFiles c)), d).

Definition recordAccessForCacheKey (now : Time) (cacheKey : string)
    (c : cachedDownloader) : cachedDownloader :=
  let f := index (cachedFiles c) cacheKey in
  let f := mkCachedFile (size f) now (cachingInfo f) (filePath f) in
  with_cachedFiles c (<[cacheKey := f]> (cachedFiles c)).

Definition cachingInfoForCacheKey (c : cachedDownloader) (cacheKey : string) : CachingInfoType :=
  cachingInfo (index (cachedFiles c) cacheKey).

Definition setCachingInfoForCacheKey (cacheKey : string) (ci : CachingInfoType)
    (c : cachedDownloader) : cachedDownloader :=
  let f := index (cachedFiles c) cacheKey in
  let f := mkCachedFile (size f) (access f) ci (filePath f) in
  with_cachedFiles c (<[cacheKey := f]> (cachedFiles c)).

Definition setFilePathForCacheKey (cacheKey : string) (fp : string)
    (c : cachedDownloader) : cachedDownloader :=
  let f := index (cachedFiles c) cacheKey in
  let f := mkCachedFile (size f) (access f) (cachingInfo f) fp in
  with_cachedFiles c (<[cacheKey := f]> (cachedFiles c)).

(** ** Admission: [moveFileIntoCache] *)

(** The body of the first [range] loop, and the loop: the sizes of all
    entries but [cacheKey]'s. *)
Definition add_used (cacheKey : string) (usedSpace : Z)
    (e : string * CachedFile) : Z :=
  let '(ck, f) := e in
  if decide (ck ≠ cacheKey) then add64 usedSpace (size f) else usedSpace.

Definition usedSpace_of (cacheKey : string) (l : list (string * CachedFile)) : Z :=
  foldl (add_used cacheKey) 0 l.

(** The body of the inner [range] loop, on the pair
    [(oldestAccessTime, oldestCacheKey)], and the loop: the entry other
    than [cacheKey]'s whose access is the earliest one before [now]; the
    empty key when there is none. *)
Definition older (cacheKey : string) (oldest : Time * string)
    (e : string * CachedFile) : Time * string :=
  let '(oldestAccessTime, oldestCacheKey) := oldest in
  let '(ck, f) := e in
  if decide (ck ≠ cacheKey) then
    if Before (access f) oldestAccessTime then (access f, ck)
    else (oldestAccessTime, oldestCacheKey)
  else (oldestAccessTime, oldestCacheKey).

Definition oldest_of (cacheKey : string) (now : Time)
    (l : list (string * CachedFile)) : Time * string :=
  foldl (older cacheKey) (now, "") l.

(** One turn of the outer [for]: the oldest entry's size leaves
    [usedSpace]; the file and the mapping that go are [cacheKey]'s. *)
Definition evict_once (o : Oracle) (cacheKey : string) (c : cachedDownloader)
    (d : Disk) (usedSpace : Z) : cachedDownloader * Disk * Z :=
  let '(_, oldestCacheKey) :=
    oldest_of cacheKey (time_Now o 0) (range o 0 (cachedFiles c)) in
  let usedSpace := sub64 usedSpace (size (index (cachedFiles c) oldestCacheKey)) in
  let fp := pathForCacheKey c cacheKey in
  let d := if decide (fp ≠ "") then os_RemoveAll fp d else d in
  (with_cachedFiles c (delete cacheKey (cachedFiles c)), d, usedSpace).

(** The outer [for]; [None] when [fuel] turns were not enough to leave it. *)
Fixpoint evict_loop (fuel : nat) (o : Oracle) (cacheKey : string) (sz : Z)
    (c : cachedDownloader) (d : Disk) (usedSpace : Z)
    : option (cachedDownloader * Disk * Z) :=
  if maxSizeInBytes c <? add64 usedSpace sz then
    match fuel with
    | O => None
    | S fuel =>
        let '(c, d, usedSpace) := evict_once o cacheKey c d usedSpace in
        evict_loop fuel (later 1 1 o) cacheKey sz c d usedSpace
    end
  else Some (c, d, usedSpace).

Definition moveFileIntoCache (fuel : nat) (o : Oracle) (cacheKey sourcePath : string)
    (sz : Z) (c : cachedDownloader) (d : Disk)
    : option (string * cachedDownloader * Disk) :=
  if maxSizeInBytes c <? sz then
    Some (sourcePath, c, d)
  else
    let usedSpace := usedSpace_of cacheKey (range o 0 (cachedFiles c)) in
    '(c, d, _) ← evict_loop fuel (later 0 1 o) cacheKey sz c d usedSpace;
    let cachePath := filepath_Join (cachedPath c) (filepath_Base sourcePath) in
    let f := index (cachedFiles c) cacheKey in
    let f := mkCachedFile sz (access f) (cachingInfo f) cachePath in
    let c := with_cachedFiles c (<[cacheKey := f]> (cachedFiles c)) in
    Some (cachePath, c, os_Rename sourcePath cachePath d).

(** ** Fetching *)

Inductive Fetched : Type :=
  | Served (h : Handle)
  | Failed (e : Failure).

(** What a finalizer does when the runtime runs it, on the store and the
    disk of that moment. *)
Definition run_finalizer (fin : Finalizer) (c : cachedDownloader) (d : Disk) : Disk :=
  match fin with
  | RemoveOnRelease path => os_RemoveAll path d
  | RemoveIfStale cacheKey path =>
      let cf := index (cachedFiles c) cacheKey in
      if decide (path ≠ filePath cf) then os_RemoveAll path d else d
  end.

(** The [url] is left out: the oracle's [Download] is the transfer of the
    [url] at hand. *)
Definition fetchUncachedFile (o : Oracle) (c : cachedDownloader) (d : Disk)
    : Fetched * Disk :=
  match ioutil_TempFile o (uncachedPath c) "uncached" with
  | None => (Failed TempFileError, d)
  | Some destinationFile =>
      let d := os_Create destinationFile d in
      match Download o (mkCachingInfo "" "") with
      | DownloadFailed => (Failed TransferError, os_RemoveAll destinationFile d)
      | DownloadDone _ _ _ =>
          match GOOS with
          | windows =>
              (Served (mkHandle destinationFile (Some (RemoveOnRelease destinationFile))), d)
          | _ =>
              (Served (mkHandle destinationFile None), os_RemoveAll destinationFile d)
          end
      end
  end.

(** The finalizer [fetchCachedFile] sets on the file it opened at [path]. *)
Definition finalizer_for (cacheKey tempFileName path : string) : option Finalizer :=
  match GOOS with
  | windows =>
      if decide (path = tempFileName) then Some (RemoveOnRelease path)
      else Some (RemoveIfStale cacheKey path)
  | _ => None
  end.

(** [fetchCachedFile] from the transfer on, that is, under the deferred
    removal of [tempFileName]; [path] is the tracked path read before. *)
Definition transfer_and_open (fuel : nat) (o : Oracle) (cacheKey tempFileName path : string)
    (c : cachedDownloader) (d : Disk) : option (Fetched * cachedDownloader * Disk) :=
  match Download o (cachingInfoForCacheKey c cacheKey) with
  | DownloadFailed => Some (Failed TransferError, c, d)
  | DownloadDone didDownload sz ci =>
      '(path, c, d) ←
        (if didDownload then
           if decide (ETag ci = "" ∧ LastModified ci = "") then
             let '(c, d) := removeCacheEntryFor cacheKey c d in
             Some (tempFileName, c, d)
           else
             let c := setCachingInfoForCacheKey cacheKey ci c in
             moveFileIntoCache fuel (later 1 0 o) cacheKey tempFileName sz c d
         else Some (path, c, d));
      if os_Open path d then
        if Seek o then
          Some (Served (mkHandle path (finalizer_for cacheKey tempFileName path)), c, d)
        else Some (Failed SeekError, c, d)
      else Some (Failed OpenError, c, d)
  end.

Definition fetchCachedFile (fuel : nat) (o : Oracle) (cacheKey : string)
    (c : cachedDownloader) (d : Disk) : option (Fetched * cachedDownloader * Disk) :=
  let c := recordAccessForCacheKey (time_Now o 0) cacheKey c in
  let path := pathForCacheKeyWithLock c cacheKey in
  match ioutil_TempFile o (uncachedPath c) (cacheKey ++ "-") with
  | None => Some (Failed TempFileError, c, d)
  | Some tempFileName =>
      '(r, c, d) ← transfer_and_open fuel o cacheKey tempFileName path c
                     (os_Create tempFileName d);
      (* defer os.RemoveAll(tempFileName) *)
      Some (r, c, os_RemoveAll tempFileName d)
  end.

Definition Fetch (fuel : nat) (o : Oracle) (cacheKey : string)
    (c : cachedDownloader) (d : Disk) : option (Fetched * cachedDownloader * Disk) :=
  if decide (cacheKey = "") then
    let '(r, d) := fetchUncachedFile o c d in
    Some (r, c, d)
  else
    fetchCachedFile fuel o (md5_hex cacheKey) c d.

End Methods.

(** ** Files still open when they are removed *)

(** [os.RemoveAll p] while the calling function still holds [p] open.
    Where deletion is deferred an open file cannot be removed (which is why
    the finalizers of the source close before they remove): the call fails,
    the source discards the error and the name stays.  Elsewhere the name
    goes and the open file stays readable. *)
Definition os_RemoveAll_open `{Runtime} (p : string) (d : Disk) : Disk :=
  match GOOS with
  | windows => d
  | _ => os_RemoveAll p d
  end.

(** The two fetches again, telling at each removal whether the call still
    holds the file open: [destinationFile] and [tempFile] from
    [ioutil.TempFile] until they are closed, and [f] from [os.Open] on.
    Files that handles of earlier calls hold open are not followed. *)
Module Held.
Section Methods.
Context `{Runtime}.

Definition fetchUncachedFile (o : Oracle) (c : cachedDownloader) (d : Disk)
    : Fetched * Disk :=
  match ioutil_TempFile o (uncachedPath c) "uncached" with
  | None => (Failed TempFileError, d)
  | Some destinationFile =>
      let d := os_Create destinationFile d in
      match Download o (mkCachingInfo "" "") with
      | DownloadFailed =>
          (* destinationFile is never closed on this path *)
          (Failed TransferError, os_RemoveAll_open destinationFile d)
      | DownloadDone _ _ _ =>
          match GOOS with
          | windows =>
              (Served (mkHandle destinationFile (Some (RemoveOnRelease destinationFile))), d)
          | _ =>
              (Served (mkHandle destinationFile None),
               os_RemoveAll_open destinationFile d)
          end
      end
  end.

(** [fetchCachedFile] from the transfer on; the last component tells
    whether, at the return, the call holds [tempFileName] open: [tempFile]
    when the transfer fails, since [tempFile.Close()] comes after that
    return, and [f] when the path opened is [tempFileName] itself. *)
Definition transfer_and_open (fuel : nat) (o : Oracle) (cacheKey tempFileName path : string)
    (c : cachedDownloader) (d : Disk)
    : option (Fetched * cachedDownloader * Disk * bool) :=
  match Download o (cachingInfoForCacheKey c cacheKey) with
  | DownloadFailed => Some (Failed TransferError, c, d, true)
  | DownloadDone didDownload sz ci =>
      (* tempFile.Close() *)
      '(path, c, d) ←
        (if didDownload then
           if decide (ETag ci = "" ∧ LastModified ci = "") then
             let '(c, d) := removeCacheEntryFor cacheKey c d in
             Some (tempFileName, c, d)
           else
             let c := setCachingInfoForCacheKey cacheKey ci c in
             moveFileIntoCache fuel (later 1 0 o) cacheKey tempFileName sz c d
         else Some (path, c, d));
      if os_Open path d then
        let held := bool_decide (path = tempFileName) in
        if Seek o then
          Some (Served (mkHandle path (finalizer_for cacheKey tempFileName path)),
                c, d, held)
        else Some (Failed SeekError, c, d, held)
      else Some (Failed OpenError, c, d, false)
  end.

Definition fetchCachedFile (fuel : nat) (o : Oracle) (cacheKey : string)
    (c : cachedDownloader) (d : Disk) : option (Fetched * cachedDownloader * Disk) :=
  let c := recordAccessForCacheKey (time_Now o 0) cacheKey c in
  let path := pathForCacheKeyWithLock c cacheKey in
  match ioutil_TempFile o (uncachedPath c) (cacheKey ++ "-") with
  | None => Some (Failed TempFileError, c, d)
  | Some tempFileName =>
      '(r, c, d, held) ← transfer_and_open fuel o cacheKey tempFileName path c
                           (os_Create tempFileName d);
      (* defer os.RemoveAll(tempFileName) *)
      Some (r, c, if held : bool then os_RemoveAll_open tempFileName d
                  else os_RemoveAll tempFileName d)
  end.

Definition Fetch (fuel : nat) (o : Oracle) (cacheKey : string)
    (c : cachedDownloader) (d : Disk) : option (Fetched * cachedDownloader * Disk) :=
  if decide (cacheKey = "") then
    let '(r, d) := fetchUncachedFile o c d in
    Some (r, c, d)
  else
    fetchCachedFile fuel o (md5_hex cacheKey) c d.

End Methods.
End Held.

(** ** Measures used in the statements *)

(** The sum of the recorded sizes of all resident entries. *)
Definition total_size (m : gmap string CachedFile) : Z :=
  map_fold (λ _ f acc, size f + acc) 0 m.

(** The prefix [Fetch] gives the temporary file it creates for a key. *)
Definition temp_prefix `{Runtime} (cacheKey : string) : string :=
  if decide (cacheKey = "") then "uncached" else md5_hex cacheKey ++ "-".

(** The entries [k] other than [cacheKey] lie strictly after [f]'s access. *)
Definition strictly_oldest (cacheKey k : string) (f : CachedFile)
    (m : gmap string CachedFile) : Prop :=
  m !! k = Some f ∧ k ≠ cacheKey ∧
  ∀ k' f', m !! k' = Some f' → k' ≠ cacheKey → k' ≠ k → access f < access f'.

(** The sum, in [Z], of the sizes a visit in the order [l] meets on the
    entries other than [cacheKey]'s. *)
Definition sizes_but (cacheKey : string) (l : list (string * CachedFile)) : Z :=
  foldr (λ '(ck, f) acc, if decide (ck ≠ cacheKey) then size f + acc else acc) 0 l.

(** The configuration [New] fixes: the two directories and the capacity. *)
Definition config (c : cachedDownloader) : string * string * Z :=
  (cachedPath c, uncachedPath c, maxSizeInBytes c).

(** What [fetchCachedFile] returns for the path it ends on: the tail of
    [transfer_and_open] from [os.Open] on. *)
Definition opened `{Runtime} (o : Oracle) (cacheKey tempFileName path : string)
    (d : Disk) : Fetched :=
  if os_Open path d then
    if Seek o then Served (mkHandle path (finalizer_for cacheKey tempFileName path))
    else Failed SeekError
  else Failed OpenError.

(** ** A platform and a world to run the program in *)

Module Demo.

(** The last element of a slash-separated path. *)
Fixpoint last_element (acc p : string) : string :=
  match p with
  | EmptyString => acc
  | String a p =>
      if Ascii.eqb a (Ascii.ascii_of_nat 47) then last_element "" p
      else last_element (acc ++ String a "") p
  end.

Definition Join (dir base : string) : string := dir ++ "/" ++ base.

(** Keys stand for their own digests here. *)
Definition posix : Runtime := mkRuntime linux Join (last_element "") (λ k, k).
Definition win : Runtime := mkRuntime windows Join (last_element "") (λ k, k).

(** A clock that ticks once per reading from [t], [range] in the order of
    [map_to_list], temporary files numbered [n], and a [Download] that
    answers [dl] whatever the validators. *)
Definition world (t : Time) (n : string) (dl : Downloaded) : Oracle :=
  mkOracle (λ i, t + Z.of_nat i) (λ _ m, map_to_list m)
           (λ dir prefix, Some (Join dir (prefix ++ n))) (λ _, dl) true.

Definition tag (e : string) : CachingInfoType := mkCachingInfo e "".

(** The store of the specification's eviction example at the moment [c] is
    moved in: [a] and [b] resident, [c] known by its access record only. *)
Definition lru_store : cachedDownloader :=
  mkCachedDownloader "cache" "tmp" 100
    (<["a" := mkCachedFile 40 1 (tag "a1") "cache/a-1"]>
      (<["b" := mkCachedFile 50 2 (tag "b1") "cache/b-1"]>
        (<["c" := mkCachedFile 0 3 (tag "c1") ""]> ∅))).
Definition lru_disk : Disk := {[ "cache/a-1"; "cache/b-1"; "tmp/c-1" ]}.

(** The store [New] returns for a capacity of 100. *)
Definition empty_store : cachedDownloader := mkCachedDownloader "cache" "tmp" 100 ∅.

(** A store with one resident entry, as its first fetch leaves it. *)
Definition k_store : cachedDownloader :=
  mkCachedDownloader "cache" "tmp" 100
    (<["k" := mkCachedFile 10 10 (tag "k1") "cache/k-1"]> ∅).
Definition k_disk : Disk := {[ "cache/k-1" ]}.

(** A run of [Fetch] calls, each in a world of its own, from a store and a
    disk; [None] when one of them does not return within [fuel] turns. *)
Definition replay `{Runtime} (fuel : nat) (calls : list (Oracle * string))
    (c : cachedDownloader) (d : Disk) : option (cachedDownloader * Disk) :=
  foldl (λ s '(o, cacheKey),
           '(c, d) ← s;
           '(_, c, d) ← Fetch fuel o cacheKey c d;
           Some (c, d))
        (Some (c, d)) calls.

(** A store in which the oldest entry, [z], never got a file: the
    fetch of [z] recorded its access and the transfer then failed; [a] was
    fetched next. *)
Definition z_store : cachedDownloader :=
  mkCachedDownloader "cache" "tmp" 100
    (<["z" := mkCachedFile 0 10 (tag "") ""]>
      (<["a" := mkCachedFile 90 20 (tag "a1") "cache/a-1"]> ∅)).
Definition z_disk : Disk := {[ "cache/a-1" ]}.

End Demo.

(** * Properties *)

(** ** Arithmetic of [int64] *)

Lemma add64_wrap_l a b : add64 (int64_wrap a) b = add64 a b.
Proof.
  unfold add64, int64_wrap.
  replace ((a + 2 ^ 63) `mod` 2 ^ 64 - 2 ^ 63 + b + 2 ^ 63)
    with ((a + 2 ^ 63) `mod` 2 ^ 64 + b) by lia.
  rewrite Zplus_mod_idemp_l. do 2 f_equal. lia.
Qed.

Lemma sub64_zero a b : add64 (sub64 a 0) b = add64 a b.
Proof. unfold sub64. rewrite Z.sub_0_r. apply add64_wrap_l. Qed.

(** ** Reading and writing the map *)

Lemma index_Some m k f : m !! k = Some f → index m k = f.
Proof. unfold index. by intros ->. Qed.

Lemma index_None m k : m !! k = None → index m k = zeroCachedFile.
Proof. unfold index. by intros ->. Qed.

Lemma index_insert_eq m k f : index (<[k := f]> m) k = f.
Proof. unfold index. by rewrite lookup_insert_eq. Qed.

Lemma total_size_insert m k f :
  total_size (<[k := f]> m) = total_size m - size (index m k) + size f.
Proof.
  unfold total_size.
  assert (Hcomm : ∀ (m' : gmap string CachedFile) (j1 j2 : string) (z1 z2 : CachedFile) (y : Z),
            j1 ≠ j2 → m' !! j1 = Some z1 → m' !! j2 = Some z2 →
            size z1 + (size z2 + y) = size z2 + (size z1 + y)) by (intros; lia).
  destruct (m !! k) as [g|] eqn:Hk.
  - rewrite <- insert_delete_eq.
    rewrite map_fold_insert_L; [|by eauto|by rewrite lookup_delete_eq].
    rewrite (map_fold_delete_L _ _ k g m); [|by eauto|done].
    rewrite (index_Some _ _ _ Hk). lia.
  - rewrite map_fold_insert_L; [|by eauto|done].
    rewrite (index_None _ _ Hk). simpl. lia.
Qed.

(** ** The disk *)

Lemma os_RemoveAll_gone p d : p ∉ os_RemoveAll p d.
Proof.
  unfold os_RemoveAll. apply not_elem_of_difference. right.
  by apply elem_of_singleton.
Qed.

Lemma os_Remove_gone p d : p ∉ os_Remove p d.
Proof. apply os_RemoveAll_gone. Qed.

Lemma os_RemoveAll_was q p d : q ∈ os_RemoveAll p d → q ∈ d.
Proof. unfold os_RemoveAll. by intros [? _]%elem_of_difference. Qed.

Lemma os_Remove_other q p d : q ≠ p → q ∈ d → q ∈ os_Remove p d.
Proof.
  intros Hne Hin. unfold os_Remove. apply elem_of_difference.
  split; [done|]. by intros ?%elem_of_singleton.
Qed.

Lemma os_Create_here p d : p ∈ os_Create p d.
Proof. unfold os_Create. apply elem_of_union. left. by apply elem_of_singleton. Qed.

Lemma os_Create_old q p d : q ∈ d → q ∈ os_Create p d.
Proof. intros Hin. unfold os_Create. apply elem_of_union. by right. Qed.

Lemma os_Open_true p d : p ∈ d → os_Open p d = true.
Proof. intros Hin. unfold os_Open. by apply bool_decide_eq_true. Qed.

Create HintDb disk.
#[local] Hint Resolve os_RemoveAll_gone os_Remove_gone os_Remove_other
  os_Create_here os_Create_old os_Open_true : disk.

(** ** The two scans of [moveFileIntoCache] *)

Lemma foldl_permutation_comm {A B} (f : B → A → B) (l l' : list A) :
  (∀ b x y, f (f b x) y = f (f b y) x) →
  l ≡ₚ l' → ∀ b, foldl f b l = foldl f b l'.
Proof.
  intros Hf Hp. induction Hp as [|x l l' _ IH|x y l|l l' l'' _ IH1 _ IH2]; intros b; simpl.
  - done.
  - apply IH.
  - by rewrite Hf.
  - by rewrite IH1.
Qed.

Lemma add64_add64 a b c : add64 (add64 a b) c = int64_wrap (a + b + c).
Proof.
  change (add64 a b) with (int64_wrap (a + b)).
  by rewrite add64_wrap_l.
Qed.

Lemma add_used_comm cacheKey u e1 e2 :
  add_used cacheKey (add_used cacheKey u e1) e2
  = add_used cacheKey (add_used cacheKey u e2) e1.
Proof.
  destruct e1 as [k1 f1], e2 as [k2 f2]. unfold add_used.
  repeat case_decide; try done.
  rewrite !add64_add64. f_equal. lia.
Qed.

(** The sum does not depend on the order of the visit. *)
Lemma usedSpace_of_permutation cacheKey l l' :
  l ≡ₚ l' → usedSpace_of cacheKey l = usedSpace_of cacheKey l'.
Proof.
  intros Hp. unfold usedSpace_of.
  by apply foldl_permutation_comm; [apply add_used_comm|].
Qed.

Lemma older_fold_keep cacheKey l (t : Time) k :
  (∀ k' f', (k', f') ∈ l → k' ≠ cacheKey → t ≤ access f') →
  foldl (older cacheKey) (t, k) l = (t, k).
Proof.
  induction l as [|[k1 f1] l IH]; intros Hl; simpl; [done|].
  case_decide as Hk.
  - assert (t ≤ access f1) by (apply (Hl k1); [left|done]).
    unfold Before. destruct (Z.ltb_spec (access f1) t); [lia|].
    apply IH. intros k' f' Hin. apply Hl. by right.
  - apply IH. intros k' f' Hin. apply Hl. by right.
Qed.

Lemma older_fold_above cacheKey b l (t : Time) k :
  b < t →
  (∀ k' f', (k', f') ∈ l → k' ≠ cacheKey → b < access f') →
  b < (foldl (older cacheKey) (t, k) l).1.
Proof.
  revert t k. induction l as [|[k1 f1] l IH]; intros t k Ht Hl; simpl; [done|].
  assert (Hl' : ∀ k' f', (k', f') ∈ l → k' ≠ cacheKey → b < access f').
  { intros k' f' Hin. apply Hl. by right. }
  case_decide as Hk; [|by apply IH].
  destruct (Before (access f1) t); [|by apply IH].
  apply IH; [|done]. apply (Hl k1); [left|done].
Qed.

(** An entry strictly older than every other one, and older than [now], is
    the one the scan ends on, whatever the order of the visit. *)
Lemma oldest_of_strictly_oldest cacheKey k f m (now : Time) l :
  strictly_oldest cacheKey k f m →
  l ≡ₚ map_to_list m →
  access f < now →
  oldest_of cacheKey now l = (access f, k).
Proof.
  intros (Hk & Hne & Hothers) Hp Hnow.
  assert (Hin : (k, f) ∈ l) by (rewrite Hp; by apply elem_of_map_to_list).
  assert (Hnd : NoDup l) by (rewrite Hp; apply NoDup_map_to_list).
  assert (Hrest : ∀ k' f', (k', f') ∈ l → k' ≠ cacheKey → (k', f') ≠ (k, f) →
                    access f < access f').
  { intros k' f' Hin' Hne' Hdiff. apply (Hothers k'); [|done|].
    - apply elem_of_map_to_list. by rewrite <- Hp.
    - intros ->. apply Hdiff. f_equal.
      rewrite Hp in Hin'. apply elem_of_map_to_list in Hin'. congruence. }
  apply list_elem_of_split in Hin as (l1 & l2 & ->).
  apply NoDup_app in Hnd as (_ & Hl1 & Hnd2).
  apply NoDup_cons in Hnd2 as [Hl2 _].
  unfold oldest_of. rewrite foldl_app. simpl.
  pose proof (older_fold_above cacheKey (access f) l1 now "" Hnow) as Habove.
  destruct (foldl (older cacheKey) (now, "") l1) as [t1 k1]. simpl in Habove.
  assert (Hlt : access f < t1).
  { apply Habove. intros k' f' Hin' Hne'. apply (Hrest k'); [|done|].
    - apply elem_of_app. by left.
    - intros Heq. rewrite Heq in Hin'. by apply (Hl1 (k, f)); [|left]. }
  replace (older cacheKey (t1, k1) (k, f)) with (access f, k).
  - apply older_fold_keep. intros k' f' Hin' Hne'.
    apply Z.lt_le_incl, (Hrest k'); [|done|].
    + apply elem_of_app. right. by right.
    + intros Heq. by rewrite Heq in Hin'.
  - unfold older, Before. rewrite decide_True by done.
    by destruct (Z.ltb_spec (access f) t1); [|lia].
Qed.

(** ** The eviction loop *)

Lemma evict_once_store o cacheKey c d usedSpace :
  (evict_once o cacheKey c d usedSpace).1
  = removeCacheEntryFor cacheKey c d.
Proof.
  unfold evict_once, removeCacheEntryFor.
  by destruct (oldest_of _ _ _).
Qed.

Lemma evict_once_used o cacheKey c d usedSpace :
  (evict_once o cacheKey c d usedSpace).2
  = sub64 usedSpace
      (size (index (cachedFiles c)
        (oldest_of cacheKey (time_Now o 0) (range o 0 (cachedFiles c))).2)).
Proof. unfold evict_once. by destruct (oldest_of _ _ _). Qed.

Lemma removeCacheEntryFor_twice cacheKey c d :
  let '(c1, d1) := removeCacheEntryFor cacheKey c d in
  removeCacheEntryFor cacheKey c1 d1 = (c1, d1).
Proof.
  unfold removeCacheEntryFor, pathForCacheKey, with_cachedFiles. simpl.
  rewrite (index_None (delete _ _)) by apply lookup_delete_eq. simpl.
  by rewrite delete_delete_eq.
Qed.

(** However many turns the loop takes, what it leaves is the store and the
    disk it found, or those with [cacheKey]'s own entry and file removed:
    no other entry and no other file is ever touched. *)
Lemma evict_loop_result fuel o cacheKey sz c d usedSpace c' d' usedSpace' :
  evict_loop fuel o cacheKey sz c d usedSpace = Some (c', d', usedSpace') →
  (c', d') = (c, d) ∨ (c', d') = removeCacheEntryFor cacheKey c d.
Proof.
  revert o c d usedSpace.
  induction fuel as [|fuel IH]; intros o c d usedSpace; simpl.
  - destruct (_ <? _); [done|]. intros [= <- <- <-]. by left.
  - destruct (_ <? _); [|intros [= <- <- <-]; by left].
    pose proof (evict_once_store o cacheKey c d usedSpace) as Hs.
    destruct (evict_once o cacheKey c d usedSpace) as [[c1 d1] u1].
    simpl in Hs. intros Hl. right.
    apply IH in Hl as [Hl|Hl]; [congruence|].
    pose proof (removeCacheEntryFor_twice cacheKey c d) as Ht.
    rewrite <- Hs in Ht. by rewrite Hl, <- Hs.
Qed.

Lemma strictly_oldest_delete cacheKey k f m :
  strictly_oldest cacheKey k f m →
  strictly_oldest cacheKey k f (delete cacheKey m).
Proof.
  intros (Hk & Hne & Hothers). split_and!; [|done|].
  - by rewrite lookup_delete_ne.
  - intros k' f' Hk' Hne'. apply Hothers; [|done].
    by rewrite lookup_delete_ne in Hk'.
Qed.

Lemma fair_later n k o : fair o → fair (later n k o).
Proof. intros Hf i m. apply Hf. Qed.

(** When the oldest entry other than [cacheKey]'s has recorded size 0, a
    turn of the loop changes nothing the loop condition reads: once
    entered, the loop is never left. *)
Lemma evict_loop_stuck fuel o cacheKey sz c d usedSpace k f :
  fair o →
  strictly_oldest cacheKey k f (cachedFiles c) →
  size f = 0 →
  (∀ n, access f < time_Now o n) →
  maxSizeInBytes c < add64 usedSpace sz →
  evict_loop fuel o cacheKey sz c d usedSpace = None.
Proof.
  revert o c d usedSpace.
  induction fuel as [|fuel IH]; intros o c d usedSpace Hfair Hold Hsz Hclock Hfull; simpl.
  - by destruct (Z.ltb_spec (maxSizeInBytes c) (add64 usedSpace sz)); [|lia].
  - destruct (Z.ltb_spec (maxSizeInBytes c) (add64 usedSpace sz)); [|lia].
    pose proof (evict_once_store o cacheKey c d usedSpace) as Hs.
    pose proof (evict_once_used o cacheKey c d usedSpace) as Hu.
    destruct (evict_once o cacheKey c d usedSpace) as [[c1 d1] u1].
    simpl in Hs, Hu.
    rewrite (oldest_of_strictly_oldest cacheKey k f (cachedFiles c)) in Hu;
      [|done|apply Hfair|apply Hclock].
    simpl in Hu. destruct Hold as (Hk & Hne & Hothers).
    rewrite (index_Some _ _ _ Hk), Hsz in Hu.
    injection Hs as -> _.
    apply (IH _ _ _ _ (fair_later 1 1 o Hfair)); simpl.
    + by apply strictly_oldest_delete.
    + done.
    + intros n. apply Hclock.
    + by rewrite Hu, sub64_zero.
Qed.

(** ** Admission *)

Section Admission.
Context `{Runtime}.

(** [moveFileIntoCache] past its capacity check, with the sum of the first
    scan freed from the order of the visit. *)
Lemma moveFileIntoCache_fits fuel o cacheKey sourcePath sz c d :
  fair o →
  ¬ maxSizeInBytes c < sz →
  moveFileIntoCache fuel o cacheKey sourcePath sz c d
  = '(c1, d1, _) ← evict_loop fuel (later 0 1 o) cacheKey sz c d
                     (usedSpace_of cacheKey (map_to_list (cachedFiles c)));
    let cachePath := filepath_Join (cachedPath c1) (filepath_Base sourcePath) in
    let f := index (cachedFiles c1) cacheKey in
    Some (cachePath,
          with_cachedFiles c1
            (<[cacheKey := mkCachedFile sz (access f) (cachingInfo f) cachePath]>
               (cachedFiles c1)),
          os_Rename sourcePath cachePath d1).
Proof.
  intros Hfair Hfit. unfold moveFileIntoCache.
  destruct (Z.ltb_spec (maxSizeInBytes c) sz); [lia|].
  by rewrite (usedSpace_of_permutation _ _ _ (Hfair 0%nat (cachedFiles c))).
Qed.

(** Admission never takes the mapping of any other key out of the store. *)
Lemma moveFileIntoCache_others fuel o cacheKey sourcePath sz c d p c' d' :
  moveFileIntoCache fuel o cacheKey sourcePath sz c d = Some (p, c', d') →
  ∀ k, k ≠ cacheKey → cachedFiles c' !! k = cachedFiles c !! k.
Proof.
  unfold moveFileIntoCache. destruct (_ <? _); [by intros [= <- <- <-]|].
  destruct (evict_loop _ _ _ _ _ _ _) as [[[c1 d1] u1]|] eqn:Hl; [|done].
  simpl. intros [= <- <- <-] k Hk. simpl.
  rewrite lookup_insert_ne by done.
  apply evict_loop_result in Hl as [[= -> ->]|Hl]; [done|].
  injection Hl as -> _. simpl. by rewrite lookup_delete_ne.
Qed.

(** Admission that finds the cache full, with an entry of recorded size 0
    as the oldest one, does not return, whatever the fuel. *)
Lemma moveFileIntoCache_stuck fuel o cacheKey sourcePath sz c d k f :
  fair o →
  ¬ maxSizeInBytes c < sz →
  strictly_oldest cacheKey k f (cachedFiles c) →
  size f = 0 →
  (∀ n, access f < time_Now o n) →
  maxSizeInBytes c < add64 (usedSpace_of cacheKey (map_to_list (cachedFiles c))) sz →
  moveFileIntoCache fuel o cacheKey sourcePath sz c d = None.
Proof.
  intros Hfair Hfit Hold Hsz Hclock Hfull.
  rewrite moveFileIntoCache_fits by done.
  by rewrite (evict_loop_stuck _ _ _ _ _ _ _ k f);
    [|apply fair_later|..].
Qed.

End Admission.

(** ** The fetch *)

Section Fetching.
Context `{Runtime}.

Lemma Fetch_cached fuel o cacheKey c d :
  cacheKey ≠ "" →
  Fetch fuel o cacheKey c d = fetchCachedFile fuel o (md5_hex cacheKey) c d.
Proof. intros. unfold Fetch. by rewrite decide_False. Qed.

Lemma pathForCacheKey_recordAccess now cacheKey c :
  pathForCacheKey (recordAccessForCacheKey now cacheKey c) cacheKey
  = pathForCacheKey c cacheKey.
Proof.
  unfold pathForCacheKey, recordAccessForCacheKey. simpl.
  by rewrite index_insert_eq.
Qed.

Lemma cachingInfo_recordAccess now cacheKey c :
  cachingInfoForCacheKey (recordAccessForCacheKey now cacheKey c) cacheKey
  = cachingInfoForCacheKey c cacheKey.
Proof.
  unfold cachingInfoForCacheKey, recordAccessForCacheKey. simpl.
  by rewrite index_insert_eq.
Qed.

(** [fetchCachedFile] once the temporary file exists. *)
Lemma fetchCachedFile_created fuel o cacheKey c d tempFileName :
  ioutil_TempFile o (uncachedPath c) (cacheKey ++ "-") = Some tempFileName →
  fetchCachedFile fuel o cacheKey c d
  = '(r, c', d') ← transfer_and_open fuel o cacheKey tempFileName
                     (pathForCacheKey c cacheKey)
                     (recordAccessForCacheKey (time_Now o 0) cacheKey c)
                     (os_Create tempFileName d);
    Some (r, c', os_RemoveAll tempFileName d').
Proof.
  intros Htmp. unfold fetchCachedFile, pathForCacheKeyWithLock.
  rewrite pathForCacheKey_recordAccess. simpl. by rewrite Htmp.
Qed.

(** Whatever a fetch under a key returns, the temporary file it created is
    gone by then. *)
Lemma fetchCachedFile_temp_gone fuel o cacheKey c d tempFileName r c' d' :
  ioutil_TempFile o (uncachedPath c) (cacheKey ++ "-") = Some tempFileName →
  fetchCachedFile fuel o cacheKey c d = Some (r, c', d') →
  tempFileName ∉ d'.
Proof.
  intros Htmp. rewrite (fetchCachedFile_created _ _ _ _ _ _ Htmp).
  destruct (transfer_and_open _ _ _ _ _ _ _) as [[[r1 c1] d1]|]; [|done].
  simpl. intros [= <- <- <-]. auto with disk.
Qed.

Lemma os_Open_created p d : os_Open p (os_Create p d) = true.
Proof. auto with disk. Qed.

End Fetching.

(** * The claims *)

Section Claims.
Context `{Runtime}.

Lemma finalizer_for_temp cacheKey tempFileName :
  finalizer_for cacheKey tempFileName tempFileName
  = match GOOS with
    | windows => Some (RemoveOnRelease tempFileName)
    | _ => None
    end.
Proof. unfold finalizer_for. destruct GOOS; [done|]. by rewrite decide_True. Qed.

Lemma removeCacheEntryFor_spec cacheKey c d :
  let '(c', d') := removeCacheEntryFor cacheKey c d in
  cachedFiles c' !! cacheKey = None ∧
  (∀ k, k ≠ cacheKey → cachedFiles c' !! k = cachedFiles c !! k) ∧
  (pathForCacheKey c cacheKey ≠ "" → pathForCacheKey c cacheKey ∉ d') ∧
  (∀ p, p ≠ pathForCacheKey c cacheKey → p ∈ d → p ∈ d').
Proof.
  unfold removeCacheEntryFor. simpl. split_and!.
  - apply lookup_delete_eq.
  - intros k Hk. by rewrite lookup_delete_ne.
  - intros Hne. rewrite decide_True by done. auto with disk.
  - intros p Hp Hin. case_decide; auto with disk.
Qed.



Lemma transfer_and_open_served fuel o cacheKey tempFileName path c d h c' d' :
  transfer_and_open fuel o cacheKey tempFileName path c d = Some (Served h, c', d') →
  finalizer h = finalizer_for cacheKey tempFileName (name h).
Proof.
  unfold transfer_and_open. destruct (Download o _) as [|didDownload sz ci]; [done|].
  match goal with |- context [mbind _ ?x] => destruct x as [[[p1 c1] d1]|] end;
    [|done].
  simpl. destruct (os_Open p1 d1); [|done]. destruct (Seek o); [|done].
  by intros [= <- <- <-].
Qed.



(** *** Removal of a file the call holds open *)

Lemma os_RemoveAll_open_elsewhere p d :
  GOOS ≠ windows → os_RemoveAll_open p d = os_RemoveAll p d.
Proof. unfold os_RemoveAll_open. by destruct GOOS. Qed.

Lemma os_RemoveAll_open_deferred p d :
  GOOS = windows → os_RemoveAll_open p d = d.
Proof. unfold os_RemoveAll_open. by intros ->. Qed.

(** Off the platform that defers deletion the methods of [Held] are the
    methods above. *)
Lemma Held_transfer_and_open_elsewhere fuel o cacheKey tempFileName path c d :
  GOOS ≠ windows →
  ('(r, c', d', held) ← Held.transfer_and_open fuel o cacheKey tempFileName path c d;
   Some (r, c', if held : bool then os_RemoveAll_open tempFileName d'
                else os_RemoveAll tempFileName d'))
  = ('(r, c', d') ← transfer_and_open fuel o cacheKey tempFileName path c d;
     Some (r, c', os_RemoveAll tempFileName d')).
Proof.
  intros Hos. unfold Held.transfer_and_open, transfer_and_open.
  destruct (Download o _) as [|didDownload sz ci]; simpl.
  { by rewrite os_RemoveAll_open_elsewhere. }
  assert (Hend : ∀ (p1 : string) (c1 : cachedDownloader) (d1 : Disk) (held : bool),
    (if os_Open p1 d1
     then if Seek o
          then Some (Served (mkHandle p1 (finalizer_for cacheKey tempFileName p1)),
                     c1, d1, held)
          else Some (Failed SeekError, c1, d1, held)
     else Some (Failed OpenError, c1, d1, false))
    ≫= (λ '(r, c', d', held),
          Some (r, c', if held : bool then os_RemoveAll_open tempFileName d'
                       else os_RemoveAll tempFileName d'))
    = (if os_Open p1 d1
       then if Seek o
            then Some (Served (mkHandle p1 (finalizer_for cacheKey tempFileName p1)),
                       c1, d1)
            else Some (Failed SeekError, c1, d1)
       else Some (Failed OpenError, c1, d1))
      ≫= (λ '(r, c', d'), Some (r, c', os_RemoveAll tempFileName d'))).
  { intros p1 c1 d1 held. destruct (os_Open p1 d1); [|done].
    destruct (Seek o), held; simpl; by rewrite ?os_RemoveAll_open_elsewhere. }
  destruct didDownload; [case_decide|]; simpl.
  - apply Hend.
  - destruct (moveFileIntoCache _ _ _ _ _ _ _) as [[[p1 c1] d1]|]; [|done].
    apply Hend.
  - apply Hend.
Qed.

Lemma Held_Fetch_elsewhere fuel o cacheKey c d :
  GOOS ≠ windows → Held.Fetch fuel o cacheKey c d = Fetch fuel o cacheKey c d.
Proof.
  intros Hos. unfold Held.Fetch, Fetch. case_decide.
  - unfold Held.fetchUncachedFile, fetchUncachedFile.
    destruct (ioutil_TempFile o _ _); [|done].
    destruct (Download o _); rewrite ?os_RemoveAll_open_elsewhere by done; [done|].
    by destruct GOOS; rewrite ?os_RemoveAll_open_elsewhere.
  - unfold Held.fetchCachedFile, fetchCachedFile.
    destruct (ioutil_TempFile o _ _); [|done].
    by apply Held_transfer_and_open_elsewhere.
Qed.

Lemma Held_fetchCachedFile_failed_transfer fuel o cacheKey c d tempFileName :
  ioutil_TempFile o (uncachedPath c) (cacheKey ++ "-") = Some tempFileName →
  Download o (cachingInfoForCacheKey c cacheKey) = DownloadFailed →
  Held.fetchCachedFile fuel o cacheKey c d
  = Some (Failed TransferError,
          recordAccessForCacheKey (time_Now o 0) cacheKey c,
          os_RemoveAll_open tempFileName (os_Create tempFileName d)).
Proof.
  intros Htmp Hdl. unfold Held.fetchCachedFile, pathForCacheKeyWithLock. simpl.
  rewrite Htmp. unfold Held.transfer_and_open.
  by rewrite cachingInfo_recordAccess, Hdl.
Qed.

(** Where an open file can be unlinked, a [Fetch] that fails leaves no
    temporary file behind. *)
Lemma failed_fetch_leaves_no_temp_elsewhere fuel o cacheKey c d e c' d' tempFileName :
  GOOS ≠ windows →
  Held.Fetch fuel o cacheKey c d = Some (Failed e, c', d') →
  ioutil_TempFile o (uncachedPath c) (temp_prefix cacheKey) = Some tempFileName →
  tempFileName ∉ d'.
Proof.
  intros Hos. rewrite Held_Fetch_elsewhere by done.
  unfold Fetch, temp_prefix. case_decide as Hkey.
  - unfold fetchUncachedFile. intros Hfetch Htmp. rewrite Htmp in Hfetch.
    destruct (Download o _).
    + injection Hfetch as _ _ <-. auto with disk.
    + by destruct GOOS.
  - intros Hfetch Htmp. by eapply fetchCachedFile_temp_gone.
Qed.

(** On every platform, a [Fetch] that fails in the final open leaves no
    temporary file behind: by then [tempFile] is closed and nothing else
    is open. *)
Lemma open_failure_leaves_no_temp fuel o cacheKey c d c' d' tempFileName :
  Held.Fetch fuel o cacheKey c d = Some (Failed OpenError, c', d') →
  ioutil_TempFile o (uncachedPath c) (temp_prefix cacheKey) = Some tempFileName →
  tempFileName ∉ d'.
Proof.
  unfold Held.Fetch, temp_prefix. case_decide as Hkey.
  - unfold Held.fetchUncachedFile. intros Hfetch Htmp. rewrite Htmp in Hfetch.
    destruct (Download o _); [done|by destruct GOOS].
  - unfold Held.fetchCachedFile. simpl. intros Hfetch Htmp. rewrite Htmp in Hfetch.
    revert Hfetch. unfold Held.transfer_and_open.
    destruct (Download o _) as [|didDownload sz ci]; [done|].
    assert (Hend : ∀ (p1 : string) (c1 : cachedDownloader) (d1 : Disk) (held : bool),
      (if os_Open p1 d1
       then if Seek o
            then Some (Served (mkHandle p1 (finalizer_for (md5_hex cacheKey) tempFileName p1)),
                       c1, d1, held)
            else Some (Failed SeekError, c1, d1, held)
       else Some (Failed OpenError, c1, d1, false))
      ≫= (λ '(r, c', d', held),
            Some (r, c', if held : bool then os_RemoveAll_open tempFileName d'
                         else os_RemoveAll tempFileName d'))
      = Some (Failed OpenError, c', d') → tempFileName ∉ d').
    { intros p1 c1 d1 held. destruct (os_Open p1 d1); [by destruct (Seek o)|].
      simpl. intros [= <- <-]. auto with disk. }
    destruct didDownload; [case_decide|]; simpl.
    + apply Hend.
    + destruct (moveFileIntoCache _ _ _ _ _ _ _) as [[[p1 c1] d1]|]; [|done].
      apply Hend.
    + apply Hend.
Qed.

(** C9.  Where deletion is deferred, a [Fetch] whose transfer fails returns
    the failure with the temporary file it created still on disk: the
    removal comes while the call still holds the file open, and so does
    nothing.  (Elsewhere, and when it is the final open that fails, the
    file is gone: the two lemmas above.) *)
Theorem failed_transfer_leaves_temp_where_deferred fuel o cacheKey c d tempFileName :
  GOOS = windows →
  ioutil_TempFile o (uncachedPath c) (temp_prefix cacheKey) = Some tempFileName →
  (∀ ci, Download o ci = DownloadFailed) →
  ∃ c' d',
    Held.Fetch fuel o cacheKey c d = Some (Failed TransferError, c', d') ∧
    tempFileName ∈ d'.
Proof.
  intros Hos Htmp Hdl. unfold Held.Fetch. unfold temp_prefix in Htmp.
  case_decide as Hkey.
  - unfold Held.fetchUncachedFile. rewrite Htmp, Hdl.
    eexists _, _. split; [reflexivity|].
    rewrite os_RemoveAll_open_deferred by done. auto with disk.
  - rewrite (Held_fetchCachedFile_failed_transfer _ _ _ _ _ _ Htmp (Hdl _)).
    eexists _, _. split; [reflexivity|].
    rewrite os_RemoveAll_open_deferred by done. auto with disk.
Qed.

(** C10.  [Fetch] with the empty key returns and hands back the very
    store it was given.  Whenever the temporary file can be created and the
    transfer does not fail, what it returns is a handle on that file.  The
    handle it serves is on a file that is already off the disk where an
    open file can be unlinked; where it cannot, the file is on disk and the
    handle carries the finalizer that removes it, whatever the store and
    the disk then are. *)
Theorem bypass_leaves_store_alone fuel o c d :
  ∃ r d',
    Fetch fuel o "" c d = Some (r, c, d') ∧
    (∀ h, r = Served h →
      match GOOS with
      | windows =>
          ∃ fin, finalizer h = Some fin ∧
            ∀ (c2 : cachedDownloader) (d2 : Disk), name h ∉ run_finalizer fin c2 d2
      | _ => finalizer h = None ∧ name h ∉ d'
      end) ∧
    (∀ destinationFile didDownload sz ci,
       ioutil_TempFile o (uncachedPath c) "uncached" = Some destinationFile →
       Download o (mkCachingInfo "" "") = DownloadDone didDownload sz ci →
       ∃ h, r = Served h ∧ name h = destinationFile ∧
            (GOOS = windows →
               finalizer h = Some (RemoveOnRelease destinationFile) ∧
               destinationFile ∈ d')).
Proof.
  unfold Fetch. rewrite decide_True by done. unfold fetchUncachedFile.
  destruct (ioutil_TempFile o _ _) as [destinationFile|].
  - destruct (Download o _).
    + eexists _, _. split; [done|]. split; [by intros h [=]|].
      by intros ? ? ? ? _ [=].
    + destruct GOOS eqn:Hos; eexists _, _; (split; [done|]); split.
      * intros h [= <-]; simpl. split; [done|]. auto with disk.
      * intros ? ? ? ? [= <-] _. eexists. by split_and!.
      * intros h [= <-]; simpl.
        eexists. split; [done|]. intros c2 d2. simpl. auto with disk.
      * intros ? ? ? ? [= <-] _. eexists. split_and!; [done..|].
        intros _. split; [done|]. auto with disk.
  - eexists _, _. split; [done|]. split; [by intros h [=]|].
    by intros ? ? ? ? [=].
Qed.

End Claims.

(** * The claims on concrete runs *)

Section Runs.
Import Demo.

(** Closed statements about runs are settled by running them. *)
Ltac run := vm_compute; reflexivity.

(** C1.  The eviction example of the specification, run on the code:
    capacity 100, [a] (40 bytes, access 1) and [b] (50 bytes, access 2)
    resident, [c] (20 bytes) moved in.  The scan of the one turn the loop
    takes does end on [a], and the turn takes [a]'s 40 bytes off the 90 in
    use; but the mapping it deletes is [c]'s own.  Admission returns with
    [a]'s mapping and file in place: the resident set is [{a, b, c}]. *)
Theorem lru_example_evicts_nothing :
  let o := world 4 "1" DownloadFailed in
  usedSpace_of "c" (range o 0 (cachedFiles lru_store)) = 90 ∧
  oldest_of "c" (time_Now o 0) (range o 1 (cachedFiles lru_store)) = (1, "a") ∧
  evict_once (later 0 1 o) "c" lru_store lru_disk 90
  = (with_cachedFiles lru_store (delete "c" (cachedFiles lru_store)), lru_disk, 50) ∧
  ∃ c' d',
    moveFileIntoCache (H := posix) 1 o "c" "tmp/c-1" 20 lru_store lru_disk
    = Some ("cache/c-1", c', d') ∧
    dom (cachedFiles c') = {[ "a"; "b"; "c" ]} ∧
    cachedFiles c' !! "a" = cachedFiles lru_store !! "a" ∧
    "cache/a-1" ∈ d'.
Proof.
  intros o. split_and!; [run..|].
  eexists _, _. split; [run|].
  split_and!; run.
Qed.

(** C2.  Three fetches into an empty cache of capacity 100, of 40, 50 and
    20 bytes, each with a validator: all three return, the entry moved in
    last has 20 bytes and is resident, and the recorded sizes of the
    resident entries add up to 110. *)
Theorem capacity_exceeded_after_three_fetches :
  ∃ c' d',
    replay (H := posix) 1
      [ (world 10 "1" (DownloadDone true 40 (tag "a1")), "a");
        (world 20 "1" (DownloadDone true 50 (tag "b1")), "b");
        (world 30 "1" (DownloadDone true 20 (tag "c1")), "c") ]
      empty_store ∅ = Some (c', d') ∧
    maxSizeInBytes c' = 100 ∧
    size (index (cachedFiles c') "c") = 20 ∧
    total_size (cachedFiles c') = 110.
Proof.
  eexists _, _. split; [run|].
  split_and!; run.
Qed.

(** C3.  A fetch of [z] whose transfer fails, then a fetch of [a] (90
    bytes), leave the store [z_store]: [z] is its oldest entry and has
    recorded size 0.  The fetch of [c] (20 bytes) that follows reaches
    [moveFileIntoCache] with 20 bytes to place into a capacity of 100, and
    neither the admission nor the fetch returns, whatever the fuel. *)
Theorem admission_does_not_return :
  replay (H := posix) 0
    [ (world 10 "1" DownloadFailed, "z");
      (world 20 "1" (DownloadDone true 90 (tag "a1")), "a") ]
    empty_store ∅ = Some (z_store, z_disk) ∧
  ∀ fuel,
    let o := world 30 "1" (DownloadDone true 20 (tag "c1")) in
    moveFileIntoCache (H := posix) fuel (later 1 0 o) "c" "tmp/c-1" 20
      (setCachingInfoForCacheKey "c" (tag "c1")
         (recordAccessForCacheKey 30 "c" z_store))
      (os_Create "tmp/c-1" z_disk) = None ∧
    Fetch (H := posix) fuel o "c" z_store z_disk = None.
Proof.
  split; [run|]. intros fuel o.
  assert (Hmove :
    moveFileIntoCache (H := posix) fuel (later 1 0 o) "c" "tmp/c-1" 20
      (setCachingInfoForCacheKey "c" (tag "c1")
         (recordAccessForCacheKey 30 "c" z_store))
      (os_Create "tmp/c-1" z_disk) = None).
  { apply (moveFileIntoCache_stuck (H := posix) _ _ _ _ _ _ _
             "z" (mkCachedFile 0 10 (tag "") "")).
    - intros n m. reflexivity.
    - simpl. lia.
    - split_and!; [run|done|].
      intros k' f' Hk' Hc Hz. apply elem_of_map_to_list in Hk'.
      assert (Hm : map_to_list (cachedFiles
                (setCachingInfoForCacheKey "c" (tag "c1")
                   (recordAccessForCacheKey 30 "c" z_store)))
              = [ ("c", mkCachedFile 0 30 (tag "c1") "");
                  ("a", mkCachedFile 90 20 (tag "a1") "cache/a-1");
                  ("z", mkCachedFile 0 10 (tag "") "") ])
        by (run).
      rewrite Hm in Hk'.
      repeat (apply elem_of_cons in Hk' as [Hk'|Hk']);
        [injection Hk' as -> ->..|by apply elem_of_nil in Hk'];
        [done|simpl; lia|done].
    - reflexivity.
    - intros n. simpl. lia.
    - run. }
  split; [exact Hmove|].
  rewrite Fetch_cached by done. change (md5_hex "c") with "c".
  rewrite (fetchCachedFile_created (H := posix) _ _ _ _ _ "tmp/c-1")
    by reflexivity.
  unfold transfer_and_open.
  change (Download o _) with (DownloadDone true 20 (tag "c1")).
  cbv beta iota.
  rewrite decide_False by (by intros [? _]).
  change (time_Now o 0) with 30.
  by rewrite Hmove.
Qed.

(** C4.  A fetch of [k] (10 bytes) into an empty cache leaves [k_store]:
    [k] tracked at [cache/k-1].  A second fetch of [k] that brings a new
    body places it under the same key without a turn of the eviction loop:
    [k] is the only entry and is tracked at [cache/k-2], and the file of
    the entry it replaced, [cache/k-1], is still on disk. *)
Theorem readmission_leaves_prior_file :
  replay (H := posix) 0
    [ (world 10 "1" (DownloadDone true 10 (tag "k1")), "k") ]
    empty_store ∅ = Some (k_store, k_disk) ∧
  ∃ c' d',
    Fetch (H := posix) 0 (world 20 "2" (DownloadDone true 10 (tag "k2")))
      "k" k_store k_disk
    = Some (Served (mkHandle "cache/k-2" None), c', d') ∧
    dom (cachedFiles c') = {[ "k" ]} ∧
    pathForCacheKey c' "k" = "cache/k-2" ∧
    d' = {[ "cache/k-1"; "cache/k-2" ]}.
Proof.
  split; [run|].
  eexists _, _. split; [run|].
  split_and!; run.
Qed.

(** ** The general claims at work *)





(** The transfer for [a] fails where deletion is deferred. *)
Lemma failed_transfer_leaves_temp_where_deferred_witness :
  ∃ c' d',
    Held.Fetch (H := win) 0 (world 30 "2" DownloadFailed) "a" lru_store lru_disk
    = Some (Failed TransferError, c', d') ∧
    "tmp/a-2" ∈ d'.
Proof.
  apply (failed_transfer_leaves_temp_where_deferred (H := win) 0
           (world 30 "2" DownloadFailed) "a" lru_store lru_disk "tmp/a-2").
  - reflexivity.
  - reflexivity.
  - intros ci. reflexivity.
Defined.

(** A fetch with the empty key: the handle served where an open file can
    be unlinked, and the one served where it cannot. *)
Lemma bypass_leaves_store_alone_witness :
  (∃ h d', Fetch (H := posix) 0 (world 30 "2" (DownloadDone true 5 (tag "")))
             "" lru_store lru_disk = Some (Served h, lru_store, d') ∧
           name h = "tmp/uncached2" ∧ finalizer h = None ∧ name h ∉ d') ∧
  (∃ h d', Fetch (H := win) 0 (world 30 "2" (DownloadDone true 5 (tag "")))
             "" lru_store lru_disk = Some (Served h, lru_store, d') ∧
           name h = "tmp/uncached2" ∧
           finalizer h = Some (RemoveOnRelease "tmp/uncached2") ∧
           "tmp/uncached2" ∈ d' ∧
           "tmp/uncached2" ∉ run_finalizer (RemoveOnRelease "tmp/uncached2") lru_store d').
Proof.
  split.
  - destruct (bypass_leaves_store_alone (H := posix) 0
                (world 30 "2" (DownloadDone true 5 (tag ""))) lru_store lru_disk)
      as (r & d' & Hfetch & Hhandle & Hserved).
    destruct (Hserved "tmp/uncached2" true 5 (tag "")) as (h & -> & Hname & _);
      [reflexivity|reflexivity|].
    destruct (Hhandle h eq_refl) as [Hfin Hgone].
    by exists h, d'.
  - destruct (bypass_leaves_store_alone (H := win) 0
                (world 30 "2" (DownloadDone true 5 (tag ""))) lru_store lru_disk)
      as (r & d' & Hfetch & Hhandle & Hserved).
    destruct (Hserved "tmp/uncached2" true 5 (tag "")) as (h & -> & Hname & Hwin);
      [reflexivity|reflexivity|].
    destruct (Hwin eq_refl) as [Hfin Hin].
    destruct (Hhandle h eq_refl) as (fin & Hfin' & Hrun).
    rewrite Hfin in Hfin'. injection Hfin' as <-.
    exists h, d'. split_and!; [done..|]. rewrite <- Hname at 1. apply Hrun.
Defined.

End Runs.

(** * Further properties of the code *)

(** ** The first scan: the space in use *)

Lemma int64_wrap_zero : int64_wrap 0 = 0.
Proof. reflexivity. Qed.

Lemma int64_wrap_small z : - 2 ^ 63 ≤ z < 2 ^ 63 → int64_wrap z = z.
Proof.
  intros Hz. unfold int64_wrap. rewrite Z.mod_small by lia. lia.
Qed.

Lemma add_used_fold cacheKey l u :
  foldl (add_used cacheKey) (int64_wrap u) l
  = int64_wrap (u + sizes_but cacheKey l).
Proof.
  revert u. induction l as [|[k f] l IH]; intros u; simpl.
  - by rewrite Z.add_0_r.
  - case_decide.
    + rewrite add64_wrap_l. unfold add64. rewrite IH. f_equal. lia.
    + apply IH.
Qed.

Lemma sizes_but_permutation cacheKey l l' :
  l ≡ₚ l' → sizes_but cacheKey l = sizes_but cacheKey l'.
Proof.
  induction 1 as [|[k f] l l' _ IH|[k1 f1] [k2 f2] l|l l' l'' _ IH1 _ IH2]; simpl.
  - done.
  - by rewrite IH.
  - repeat case_decide; lia.
  - congruence.
Qed.

Lemma sizes_but_absent cacheKey (m : gmap string CachedFile) :
  m !! cacheKey = None →
  sizes_but cacheKey (map_to_list m) = total_size m.
Proof.
  intros Hk. unfold total_size. rewrite map_fold_foldr.
  assert (Hl : ∀ k f, (k, f) ∈ map_to_list m → k ≠ cacheKey).
  { intros k f Hin%elem_of_map_to_list ->. congruence. }
  induction (map_to_list m) as [|[k f] l IH]; simpl; [done|].
  rewrite decide_True by (apply (Hl k f); left).
  rewrite IH; [done|]. intros k' f' Hin. apply (Hl k' f'). by right.
Qed.

Lemma sizes_but_map cacheKey (m : gmap string CachedFile) :
  sizes_but cacheKey (map_to_list m) = total_size (delete cacheKey m).
Proof.
  destruct (m !! cacheKey) as [f|] eqn:Hk.
  - rewrite <- (sizes_but_permutation _ _ _ (map_to_list_delete m cacheKey f Hk)).
    simpl. rewrite decide_False by (intros Hn; by apply Hn).
    apply sizes_but_absent, lookup_delete_eq.
  - rewrite (delete_id _ _ Hk). by apply sizes_but_absent.
Qed.

Lemma usedSpace_of_total cacheKey (m : gmap string CachedFile) l :
  l ≡ₚ map_to_list m →
  usedSpace_of cacheKey l = int64_wrap (total_size (delete cacheKey m)).
Proof.
  intros Hp. unfold usedSpace_of.
  rewrite <- int64_wrap_zero at 1. rewrite add_used_fold, Z.add_0_l.
  by rewrite (sizes_but_permutation _ _ _ Hp), sizes_but_map.
Qed.

(** X1.  Whatever the order in which [range] visits the map, the space
    [moveFileIntoCache] takes to be in use is the sum of the recorded sizes
    of all entries but [cacheKey]'s, reduced to an [int64]. *)
Theorem usedSpace_is_wrapped_total cacheKey (m : gmap string CachedFile) l :
  l ≡ₚ map_to_list m →
  usedSpace_of cacheKey l = int64_wrap (total_size (delete cacheKey m)).
Proof.
  intros Hp. rewrite (usedSpace_of_permutation _ _ _ Hp).
  unfold usedSpace_of. rewrite <- int64_wrap_zero at 1.
  by rewrite add_used_fold, Z.add_0_l, sizes_but_map.
Qed.

(** ** The second scan: the oldest entry *)

Lemma older_fold_minimal cacheKey l (t : Time) k :
  let r := foldl (older cacheKey) (t, k) l in
  r.1 ≤ t ∧
  (∀ k' f', (k', f') ∈ l → k' ≠ cacheKey → r.1 ≤ access f') ∧
  (r = (t, k) ∨
   ∃ f, (r.2, f) ∈ l ∧ r.2 ≠ cacheKey ∧ access f = r.1 ∧ r.1 < t).
Proof.
  revert t k. induction l as [|[k1 f1] l IH]; intros t k; simpl.
  - split_and!; [lia| |by left]. intros k' f' Hin. by apply elem_of_nil in Hin.
  - case_decide as Hk1; [unfold Before; destruct (Z.ltb_spec (access f1) t) as [Hlt|Hge]|].
    + destruct (IH (access f1) k1) as (Hle & Hall & Hwho). split_and!.
      * lia.
      * intros k' f' [[= -> ->]|Hin]%elem_of_cons Hne; [done|by apply (Hall k')].
      * right. destruct Hwho as [Heq|(f & Hin & Hne & Hacc & Hlt')].
        -- exists f1. rewrite Heq. simpl. split_and!; [left|done..].
        -- exists f. split_and!; [by right|done|done|lia].
    + destruct (IH t k) as (Hle & Hall & Hwho). split_and!.
      * done.
      * intros k' f' [[= -> ->]|Hin]%elem_of_cons Hne; [lia|by apply (Hall k')].
      * destruct Hwho as [Heq|(f & Hin & Hne & Hacc & Hlt')]; [by left|].
        right. exists f. split_and!; [by right|done..].
    + destruct (IH t k) as (Hle & Hall & Hwho). split_and!.
      * done.
      * intros k' f' [[= -> ->]|Hin]%elem_of_cons Hne; [done|by apply (Hall k')].
      * destruct Hwho as [Heq|(f & Hin & Hne & Hacc & Hlt')]; [by left|].
        right. exists f. split_and!; [by right|done..].
Qed.

(** X2.  Whatever the order of the visit, the scan of the eviction loop
    ends on a time no later than [now] and no later than the access of any
    entry other than [cacheKey]'s; it ends either on [now] itself with the
    empty key, when no such entry is older than [now], or on the key of an
    entry other than [cacheKey]'s with exactly that access time. *)
Theorem oldest_is_minimal cacheKey (now : Time) (m : gmap string CachedFile) l :
  l ≡ₚ map_to_list m →
  let r := oldest_of cacheKey now l in
  r.1 ≤ now ∧
  (∀ k f, m !! k = Some f → k ≠ cacheKey → r.1 ≤ access f) ∧
  (r = (now, "") ∨
   r.2 ≠ cacheKey ∧ ∃ f, m !! r.2 = Some f ∧ access f = r.1 ∧ r.1 < now).
Proof.
  intros Hp r.
  destruct (older_fold_minimal cacheKey l now "") as (Hle & Hall & Hwho).
  fold (oldest_of cacheKey now l) in Hle, Hall, Hwho. fold r in Hle, Hall, Hwho.
  split_and!; [done| |].
  - intros k f Hk. apply Hall. rewrite Hp. by apply elem_of_map_to_list.
  - destruct Hwho as [Heq|(f & Hin & Hne & Hacc & Hlt)]; [by left|].
    right. split; [done|]. exists f. split_and!; [|done..].
    apply elem_of_map_to_list. by rewrite <- Hp.
Qed.

(** X3.  When one entry other than [cacheKey]'s is strictly older than
    every other one and older than [now], every order of the visit ends on
    that entry: the choice of the entry to evict does not depend on the
    order in which [range] happens to visit the map. *)
Theorem oldest_is_order_independent cacheKey k f (m : gmap string CachedFile)
    (now : Time) l l' :
  strictly_oldest cacheKey k f m →
  access f < now →
  l ≡ₚ map_to_list m →
  l' ≡ₚ map_to_list m →
  oldest_of cacheKey now l = (access f, k) ∧
  oldest_of cacheKey now l' = oldest_of cacheKey now l.
Proof.
  intros Hold Hnow Hl Hl'.
  by rewrite !(oldest_of_strictly_oldest cacheKey k f m).
Qed.

(** ** The eviction loop and admission *)

Lemma total_size_delete m k :
  total_size (delete k m) = total_size m - size (index m k).
Proof.
  destruct (m !! k) as [g|] eqn:Hk.
  - rewrite (index_Some _ _ _ Hk). unfold total_size.
    rewrite (map_fold_delete_L _ _ k g m); [lia| |done]. intros; lia.
  - rewrite (delete_id _ _ Hk), (index_None _ _ Hk). simpl. lia.
Qed.

Lemma evict_loop_returns cacheKey sz k f fuel :
  ∀ o c d usedSpace,
    fair o →
    strictly_oldest cacheKey k f (cachedFiles c) →
    0 < size f < 2 ^ 62 →
    (∀ n, access f < time_Now o n) →
    0 ≤ sz < 2 ^ 62 →
    0 ≤ maxSizeInBytes c →
    - 2 ^ 63 ≤ usedSpace < 2 ^ 62 →
    (Z.to_nat (usedSpace + sz - maxSizeInBytes c) ≤ fuel)%nat →
    ∃ c' d' usedSpace',
      evict_loop fuel o cacheKey sz c d usedSpace = Some (c', d', usedSpace').
Proof.
  induction fuel as [|fuel IH];
    intros o c d usedSpace Hfair Hold Hf Hclock Hsz Hmax Hused Hfuel; simpl;
    unfold add64; rewrite int64_wrap_small by lia;
    destruct (Z.ltb_spec (maxSizeInBytes c) (usedSpace + sz)); eauto; [lia|].
  pose proof (evict_once_store o cacheKey c d usedSpace) as Hs.
  pose proof (evict_once_used o cacheKey c d usedSpace) as Hu.
  destruct (evict_once o cacheKey c d usedSpace) as [[c1 d1] u1]. simpl in Hs, Hu.
  rewrite (oldest_of_strictly_oldest cacheKey k f (cachedFiles c)) in Hu;
    [|done|apply Hfair|apply Hclock].
  simpl in Hu. pose proof Hold as (Hk & _ & _).
  rewrite (index_Some _ _ _ Hk) in Hu.
  unfold sub64 in Hu. rewrite int64_wrap_small in Hu by lia.
  injection Hs as -> _.
  apply IH; simpl; [by apply fair_later|by apply strictly_oldest_delete|done| |done|done|lia|lia].
  intros n. apply Hclock.
Qed.

Section AdmissionMore.
Context `{Runtime}.

(** X4.  When the oldest entry other than [cacheKey]'s has a recorded size
    above 0, admission of a file within the capacity returns: with sizes
    that stay clear of the [int64] range, as many turns of the loop as
    there are bytes in excess are enough, whatever the order of the visits
    and the readings of the clock past that entry's access. *)
Theorem admission_returns_when_oldest_has_size fuel o cacheKey sourcePath sz c d k f :
  fair o →
  0 ≤ sz ≤ maxSizeInBytes c →
  maxSizeInBytes c < 2 ^ 62 →
  strictly_oldest cacheKey k f (cachedFiles c) →
  0 < size f < 2 ^ 62 →
  (∀ n, access f < time_Now o n) →
  0 ≤ total_size (delete cacheKey (cachedFiles c)) < 2 ^ 62 →
  (Z.to_nat (total_size (delete cacheKey (cachedFiles c)) + sz - maxSizeInBytes c)
     ≤ fuel)%nat →
  ∃ p c' d', moveFileIntoCache fuel o cacheKey sourcePath sz c d = Some (p, c', d').
Proof.
  intros Hfair Hsz Hmax Hold Hf Hclock Htotal Hfuel.
  rewrite moveFileIntoCache_fits by (done || lia).
  rewrite (usedSpace_of_total cacheKey (cachedFiles c)) by done.
  rewrite int64_wrap_small by lia.
  destruct (evict_loop_returns cacheKey sz k f fuel (later 0 1 o) c d
              (total_size (delete cacheKey (cachedFiles c))))
    as (c1 & d1 & u1 & ->); [by apply fair_later|done|done| |lia|lia|lia|done|].
  - intros n. apply Hclock.
  - simpl. eauto.
Qed.

Lemma moveFileIntoCache_at_once fuel o cacheKey sourcePath sz c d :
  ¬ maxSizeInBytes c < sz →
  ¬ maxSizeInBytes c < add64 (usedSpace_of cacheKey (range o 0 (cachedFiles c))) sz →
  let p := filepath_Join (cachedPath c) (filepath_Base sourcePath) in
  let f := index (cachedFiles c) cacheKey in
  moveFileIntoCache fuel o cacheKey sourcePath sz c d
  = Some (p,
          with_cachedFiles c
            (<[cacheKey := mkCachedFile sz (access f) (cachingInfo f) p]> (cachedFiles c)),
          os_Rename sourcePath p d).
Proof.
  intros Hfit Hroom p f. unfold moveFileIntoCache.
  destruct (Z.ltb_spec (maxSizeInBytes c) sz); [lia|].
  assert (Hloop : evict_loop fuel (later 0 1 o) cacheKey sz c d
            (usedSpace_of cacheKey (range o 0 (cachedFiles c)))
          = Some (c, d, usedSpace_of cacheKey (range o 0 (cachedFiles c)))).
  { destruct fuel; simpl;
      by destruct (Z.ltb_spec (maxSizeInBytes c)
           (add64 (usedSpace_of cacheKey (range o 0 (cachedFiles c))) sz)); [lia|]. }
  by rewrite Hloop.
Qed.

Lemma os_Rename_moves src dst d :
  src ∈ d → dst ∈ os_Rename src dst d ∧ (src ≠ dst → src ∉ os_Rename src dst d).
Proof.
  intros Hin. unfold os_Rename. rewrite decide_True by done. split.
  - apply elem_of_union. left. by apply elem_of_singleton.
  - intros Hne. rewrite elem_of_union, elem_of_singleton, elem_of_difference,
      elem_of_singleton. intros [?|[_ ?]]; done.
Qed.

Lemma os_Rename_other q src dst d :
  q ≠ src → q ≠ dst → (q ∈ os_Rename src dst d ↔ q ∈ d).
Proof.
  intros Hs Hd. unfold os_Rename. case_decide; [|done].
  rewrite elem_of_union, elem_of_singleton, elem_of_difference, elem_of_singleton.
  tauto.
Qed.

(** X5.  When the file fits the capacity beside what the first scan finds
    in use, admission returns without a turn of the loop, whatever the
    fuel.  The path returned is the base name of the source under the cache
    directory; the entry of [cacheKey] records the new size and that path
    and keeps the access time and validators it had; every other entry is
    as before.  On disk the source, if it was there, is now at the path
    returned, and every other name is as before: the file the entry
    tracked before, if another, is still there. *)
Theorem admission_without_eviction fuel o cacheKey sourcePath sz c d :
  ¬ maxSizeInBytes c < sz →
  ¬ maxSizeInBytes c < add64 (usedSpace_of cacheKey (range o 0 (cachedFiles c))) sz →
  let p := filepath_Join (cachedPath c) (filepath_Base sourcePath) in
  ∃ c' d',
    moveFileIntoCache fuel o cacheKey sourcePath sz c d = Some (p, c', d') ∧
    index (cachedFiles c') cacheKey
      = mkCachedFile sz (access (index (cachedFiles c) cacheKey))
          (cachingInfo (index (cachedFiles c) cacheKey)) p ∧
    (∀ k, k ≠ cacheKey → cachedFiles c' !! k = cachedFiles c !! k) ∧
    (sourcePath ∈ d → p ∈ d' ∧ (sourcePath ≠ p → sourcePath ∉ d')) ∧
    (∀ q, q ≠ sourcePath → q ≠ p → (q ∈ d' ↔ q ∈ d)).
Proof.
  intros Hfit Hroom p. rewrite moveFileIntoCache_at_once by done. fold p.
  eexists _, _. split; [reflexivity|]. simpl. split_and!.
  - apply index_insert_eq.
  - intros k Hk. by rewrite lookup_insert_ne.
  - apply os_Rename_moves.
  - intros q. apply os_Rename_other.
Qed.

(** X6.  When admission of a file within the capacity returns without a
    turn of the loop, and the recorded sizes are not negative and add up,
    with the new one, to less than [2^63], the recorded sizes of the
    resident entries add up to at most the capacity afterwards. *)
Theorem capacity_kept_without_eviction o cacheKey sourcePath sz c d p c' d' :
  fair o →
  0 ≤ sz ≤ maxSizeInBytes c →
  0 ≤ total_size (delete cacheKey (cachedFiles c)) →
  total_size (delete cacheKey (cachedFiles c)) + sz < 2 ^ 63 →
  moveFileIntoCache 0 o cacheKey sourcePath sz c d = Some (p, c', d') →
  total_size (cachedFiles c') ≤ maxSizeInBytes c' ∧
  maxSizeInBytes c' = maxSizeInBytes c.
Proof.
  intros Hfair Hsz Hpos Hsum. rewrite moveFileIntoCache_fits by (done || lia).
  rewrite (usedSpace_of_total cacheKey (cachedFiles c)) by done.
  rewrite int64_wrap_small by lia. simpl.
  unfold add64. rewrite int64_wrap_small by lia.
  destruct (Z.ltb_spec (maxSizeInBytes c)
              (total_size (delete cacheKey (cachedFiles c)) + sz)); [done|].
  simpl. intros [= <- <- <-]. simpl. split; [|done].
  rewrite total_size_insert. simpl. rewrite total_size_delete in *. lia.
Qed.

Lemma moveFileIntoCache_frame fuel o cacheKey sourcePath sz c d p c' d' :
  moveFileIntoCache fuel o cacheKey sourcePath sz c d = Some (p, c', d') →
  config c' = config c ∧
  (∀ q, q ≠ sourcePath → q ≠ p → q ≠ pathForCacheKey c cacheKey →
     (q ∈ d' ↔ q ∈ d)).
Proof.
  unfold moveFileIntoCache.
  destruct (_ <? _); [by intros [= <- <- <-]|].
  destruct (evict_loop _ _ _ _ _ _ _) as [[[c1 d1] u1]|] eqn:Hl; [|done].
  simpl. intros [= <- <- <-].
  assert (Hc1 : config c1 = config c ∧
            ∀ q, q ≠ pathForCacheKey c cacheKey → (q ∈ d1 ↔ q ∈ d)).
  { apply evict_loop_result in Hl as [[= -> ->]|Hl]; [done|].
    injection Hl as -> ->. split; [done|]. intros q Hq.
    case_decide; [|done]. unfold os_Remove.
    rewrite elem_of_difference, elem_of_singleton. tauto. }
  destruct Hc1 as [Hconf Hd1]. split.
  - unfold config in *. simpl. congruence.
  - intros q Hsrc Hp Hold. rewrite <- (Hd1 q Hold). by apply os_Rename_other.
Qed.

(** X7.  Whenever admission returns, the mapping of every key other than
    [cacheKey] is what it was, the configuration is unchanged, and no name
    on disk other than the source, the path returned and the path the
    entry of [cacheKey] tracked before has appeared or disappeared. *)
Theorem admission_frame fuel o cacheKey sourcePath sz c d p c' d' :
  moveFileIntoCache fuel o cacheKey sourcePath sz c d = Some (p, c', d') →
  (∀ k, k ≠ cacheKey → cachedFiles c' !! k = cachedFiles c !! k) ∧
  config c' = config c ∧
  (∀ q, q ≠ sourcePath → q ≠ p → q ≠ pathForCacheKey c cacheKey →
     (q ∈ d' ↔ q ∈ d)).
Proof.
  intros Hmove. split; [by eapply moveFileIntoCache_others|].
  by eapply moveFileIntoCache_frame.
Qed.

End AdmissionMore.

(** ** The entry store *)

Lemma index_insert_ne m k k' f : k ≠ k' → index (<[k := f]> m) k' = index m k'.
Proof. intros. unfold index. by rewrite lookup_insert_ne. Qed.

Lemma with_cachedFiles_same c : with_cachedFiles c (cachedFiles c) = c.
Proof. by destruct c. Qed.


(** X9.  Each of the three setters is read back by its getter, leaves the
    other fields of the entry as [c.cachedFiles[cacheKey]] had them (the
    zero value when the key was absent), and leaves every other entry
    alone. *)
Theorem setters_read_back c cacheKey (now : Time) ci fp :
  let f := index (cachedFiles c) cacheKey in
  index (cachedFiles (recordAccessForCacheKey now cacheKey c)) cacheKey
    = mkCachedFile (size f) now (cachingInfo f) (filePath f) ∧
  cachingInfoForCacheKey (setCachingInfoForCacheKey cacheKey ci c) cacheKey = ci ∧
  pathForCacheKey (setCachingInfoForCacheKey cacheKey ci c) cacheKey
    = pathForCacheKey c cacheKey ∧
  pathForCacheKey (setFilePathForCacheKey cacheKey fp c) cacheKey = fp ∧
  cachingInfoForCacheKey (setFilePathForCacheKey cacheKey fp c) cacheKey
    = cachingInfoForCacheKey c cacheKey ∧
  ∀ k, k ≠ cacheKey →
    cachedFiles (recordAccessForCacheKey now cacheKey c) !! k = cachedFiles c !! k ∧
    cachedFiles (setCachingInfoForCacheKey cacheKey ci c) !! k = cachedFiles c !! k ∧
    cachedFiles (setFilePathForCacheKey cacheKey fp c) !! k = cachedFiles c !! k.
Proof.
  unfold pathForCacheKey, cachingInfoForCacheKey, recordAccessForCacheKey,
    setCachingInfoForCacheKey, setFilePathForCacheKey. simpl.
  rewrite !index_insert_eq. split_and!; try done.
  intros k Hk. by rewrite !lookup_insert_ne.
Qed.

(** X10.  The setters commute, on one key as on two: each touches a field
    of its own, so the order in which an access, new validators and a new
    path are recorded does not matter. *)
Theorem setters_commute c k k' (now : Time) ci fp :
  setCachingInfoForCacheKey k ci (recordAccessForCacheKey now k' c)
  = recordAccessForCacheKey now k' (setCachingInfoForCacheKey k ci c) ∧
  setFilePathForCacheKey k fp (recordAccessForCacheKey now k' c)
  = recordAccessForCacheKey now k' (setFilePathForCacheKey k fp c) ∧
  setFilePathForCacheKey k fp (setCachingInfoForCacheKey k' ci c)
  = setCachingInfoForCacheKey k' ci (setFilePathForCacheKey k fp c).
Proof.
  unfold recordAccessForCacheKey, setCachingInfoForCacheKey,
    setFilePathForCacheKey, with_cachedFiles. simpl.
  destruct (decide (k = k')) as [->|Hne].
  - rewrite !index_insert_eq, !insert_insert_eq. done.
  - rewrite !(index_insert_ne _ k k'), !(index_insert_ne _ k' k) by done.
    split_and!; f_equal; by apply insert_insert_ne.
Qed.

(** ** The fetch, branch by branch *)

Section FetchMore.
Context `{Runtime}.

Lemma fetchCachedFile_unchanged fuel o cacheKey c d tempFileName sz ci :
  ioutil_TempFile o (uncachedPath c) (cacheKey ++ "-") = Some tempFileName →
  Download o (cachingInfoForCacheKey c cacheKey) = DownloadDone false sz ci →
  fetchCachedFile fuel o cacheKey c d
  = Some (opened o cacheKey tempFileName (pathForCacheKey c cacheKey)
            (os_Create tempFileName d),
          recordAccessForCacheKey (time_Now o 0) cacheKey c,
          os_RemoveAll tempFileName (os_Create tempFileName d)).
Proof.
  intros Htmp Hdl. rewrite (fetchCachedFile_created _ _ _ _ _ _ Htmp).
  unfold transfer_and_open, opened. rewrite cachingInfo_recordAccess, Hdl. simpl.
  by destruct (os_Open _ _); [destruct (Seek o)|].
Qed.

Lemma fetchCachedFile_cacheable fuel o cacheKey c d tempFileName sz ci :
  ioutil_TempFile o (uncachedPath c) (cacheKey ++ "-") = Some tempFileName →
  Download o (cachingInfoForCacheKey c cacheKey) = DownloadDone true sz ci →
  ¬ (ETag ci = "" ∧ LastModified ci = "") →
  fetchCachedFile fuel o cacheKey c d
  = '(p, c', d') ← moveFileIntoCache fuel (later 1 0 o) cacheKey tempFileName sz
                     (setCachingInfoForCacheKey cacheKey ci
                        (recordAccessForCacheKey (time_Now o 0) cacheKey c))
                     (os_Create tempFileName d);
    Some (opened o cacheKey tempFileName p d', c', os_RemoveAll tempFileName d').
Proof.
  intros Htmp Hdl Hci. rewrite (fetchCachedFile_created _ _ _ _ _ _ Htmp).
  unfold transfer_and_open, opened. rewrite cachingInfo_recordAccess, Hdl.
  rewrite decide_False by done.
  destruct (moveFileIntoCache _ _ _ _ _ _ _) as [[[p c1] d1]|]; [|done]. simpl.
  by destruct (os_Open _ _); [destruct (Seek o)|].
Qed.

Lemma transfer_and_open_config fuel o cacheKey tempFileName path c d r c' d' :
  transfer_and_open fuel o cacheKey tempFileName path c d = Some (r, c', d') →
  config c' = config c.
Proof.
  unfold transfer_and_open. destruct (Download o _) as [|didDownload sz ci].
  { by intros [= _ <- _]. }
  destruct didDownload; [case_decide|]; simpl.
  - destruct (os_Open _ _); [destruct (Seek o)|]; by intros [= _ <- _].
  - destruct (moveFileIntoCache _ _ _ _ _ _ _) as [[[p c1] d1]|] eqn:Hmove; [|done].
    apply moveFileIntoCache_frame in Hmove as [Hconf _]. simpl.
    destruct (os_Open _ _); [destruct (Seek o)|]; by intros [= _ <- _].
  - destruct (os_Open _ _); [destruct (Seek o)|]; by intros [= _ <- _].
Qed.

(** X11.  Whatever [Fetch] does to the entries, the configuration the
    downloader was made with (cache directory, scratch directory and
    capacity) is the same afterwards. *)
Theorem Fetch_keeps_config fuel o cacheKey c d r c' d' :
  Fetch fuel o cacheKey c d = Some (r, c', d') → config c' = config c.
Proof.
  unfold Fetch. case_decide.
  - destruct (fetchUncachedFile o c d). by intros [= _ <- _].
  - unfold fetchCachedFile. simpl.
    destruct (ioutil_TempFile o _ _) as [tempFileName|]; [|by intros [= _ <- _]].
    destruct (transfer_and_open _ _ _ _ _ _ _) as [[[r1 c1] d1]|] eqn:Hto; [|done].
    apply transfer_and_open_config in Hto. simpl. by intros [= _ <- _].
Qed.

(** X12.  When the temporary file cannot be created, [Fetch] returns that
    failure and the disk is as it was.  With the empty key the store is
    untouched too; with any other key the access has already been
    recorded, and that is all that has happened to the store. *)
Theorem temp_failure_is_returned fuel o cacheKey c d :
  ioutil_TempFile o (uncachedPath c) (temp_prefix cacheKey) = None →
  ∃ c',
    Fetch fuel o cacheKey c d = Some (Failed TempFileError, c', d) ∧
    (cacheKey = "" → c' = c) ∧
    (cacheKey ≠ "" →
       c' = recordAccessForCacheKey (time_Now o 0) (md5_hex cacheKey) c).
Proof.
  unfold Fetch, temp_prefix. case_decide as Hkey; intros Htmp.
  - unfold fetchUncachedFile. rewrite Htmp. by eexists.
  - unfold fetchCachedFile. simpl. rewrite Htmp. by eexists.
Qed.

(** X13.  When the transfer under a key fails, [Fetch] returns that
    failure.  The store has by then recorded the access and nothing else:
    a key the store did not hold now has an entry of size 0 with no path
    and no validators, and the recorded sizes add up to what they did.
    On disk no name but the temporary one has changed; the temporary file,
    removed while the call still holds it open, is gone where an open file
    can be unlinked and is still there where it cannot. *)
Theorem transfer_failure_leaves_access_record fuel o cacheKey c d tempFileName :
  cacheKey ≠ "" →
  ioutil_TempFile o (uncachedPath c) (md5_hex cacheKey ++ "-") = Some tempFileName →
  Download o (cachingInfoForCacheKey c (md5_hex cacheKey)) = DownloadFailed →
  ∃ c' d',
    Held.Fetch fuel o cacheKey c d = Some (Failed TransferError, c', d') ∧
    c' = recordAccessForCacheKey (time_Now o 0) (md5_hex cacheKey) c ∧
    (cachedFiles c !! md5_hex cacheKey = None →
       cachedFiles c' !! md5_hex cacheKey
       = Some (mkCachedFile 0 (time_Now o 0) (mkCachingInfo "" "") "")) ∧
    total_size (cachedFiles c') = total_size (cachedFiles c) ∧
    (tempFileName ∈ d' ↔ GOOS = windows) ∧
    (∀ q, q ≠ tempFileName → (q ∈ d' ↔ q ∈ d)).
Proof.
  intros Hkey Htmp Hdl. unfold Held.Fetch. rewrite decide_False by done.
  rewrite (Held_fetchCachedFile_failed_transfer _ _ _ _ _ _ Htmp Hdl).
  eexists _, _. split; [reflexivity|]. split_and!.
  - done.
  - intros Hnone. simpl. rewrite lookup_insert_eq.
    by rewrite (index_None _ _ Hnone).
  - simpl. rewrite total_size_insert. simpl. lia.
  - unfold os_RemoveAll_open. destruct GOOS; split; try done.
    + by intros ?%os_RemoveAll_gone.
    + intros _. auto with disk.
  - intros q Hq. unfold os_RemoveAll_open, os_RemoveAll, os_Create.
    destruct GOOS;
      rewrite ?elem_of_difference, elem_of_union, ?elem_of_singleton; tauto.
Qed.

(** X14.  When the origin reports the resource unchanged and the path the
    store tracks for the key is not on disk (the empty path of a key that
    has no file is never on disk), [Fetch] returns an open failure: there
    is nothing to serve. *)
Theorem unchanged_without_file_fails fuel o cacheKey c d tempFileName sz ci :
  cacheKey ≠ "" →
  ioutil_TempFile o (uncachedPath c) (md5_hex cacheKey ++ "-") = Some tempFileName →
  Download o (cachingInfoForCacheKey c (md5_hex cacheKey)) = DownloadDone false sz ci →
  pathForCacheKey c (md5_hex cacheKey) ∉ d →
  pathForCacheKey c (md5_hex cacheKey) ≠ tempFileName →
  Fetch fuel o cacheKey c d
  = Some (Failed OpenError,
          recordAccessForCacheKey (time_Now o 0) (md5_hex cacheKey) c,
          os_RemoveAll tempFileName (os_Create tempFileName d)).
Proof.
  intros Hkey Htmp Hdl Hmissing Hne. rewrite Fetch_cached by done.
  rewrite (fetchCachedFile_unchanged _ _ _ _ _ _ _ _ Htmp Hdl).
  unfold opened, os_Open. rewrite bool_decide_eq_false_2; [done|].
  unfold os_Create. rewrite elem_of_union, elem_of_singleton. tauto.
Qed.

(** A cacheable transfer that fits beside the other entries. *)
Lemma fetchCachedFile_tracks fuel o cacheKey c d tempFileName sz ci :
  fair o →
  ioutil_TempFile o (uncachedPath c) (cacheKey ++ "-") = Some tempFileName →
  Download o (cachingInfoForCacheKey c cacheKey) = DownloadDone true sz ci →
  ¬ (ETag ci = "" ∧ LastModified ci = "") →
  0 ≤ sz →
  0 ≤ total_size (delete cacheKey (cachedFiles c)) →
  total_size (delete cacheKey (cachedFiles c)) + sz ≤ maxSizeInBytes c →
  maxSizeInBytes c < 2 ^ 63 →
  Seek o = true →
  let p := filepath_Join (cachedPath c) (filepath_Base tempFileName) in
  ∃ c' d',
    fetchCachedFile fuel o cacheKey c d
    = Some (Served (mkHandle p (finalizer_for cacheKey tempFileName p)), c', d') ∧
    index (cachedFiles c') cacheKey = mkCachedFile sz (time_Now o 0) ci p ∧
    (∀ k, k ≠ cacheKey → cachedFiles c' !! k = cachedFiles c !! k) ∧
    config c' = config c ∧
    (tempFileName ∉ d') ∧
    (p ∈ d' ↔ p ≠ tempFileName) ∧
    (∀ q, q ≠ tempFileName → q ≠ p → (q ∈ d' ↔ q ∈ d)) ∧
    total_size (cachedFiles c') = total_size (delete cacheKey (cachedFiles c)) + sz.
Proof.
  intros Hfair Htmp Hdl Hci Hsz Hpos Hroom Hmax Hseek p.
  rewrite (fetchCachedFile_cacheable _ _ _ _ _ _ _ _ Htmp Hdl Hci).
  set (c1 := setCachingInfoForCacheKey cacheKey ci
               (recordAccessForCacheKey (time_Now o 0) cacheKey c)).
  assert (Hdel : delete cacheKey (cachedFiles c1) = delete cacheKey (cachedFiles c)).
  { unfold c1. simpl. by rewrite !delete_insert_eq. }
  rewrite moveFileIntoCache_at_once; simpl; [|lia|].
  2:{ rewrite (usedSpace_of_total cacheKey (cachedFiles c1)) by apply Hfair.
      rewrite Hdel, add64_wrap_l. unfold add64.
      rewrite int64_wrap_small by lia. lia. }
  fold p.
  assert (Hp : p ∈ os_Rename tempFileName p (os_Create tempFileName d)).
  { apply os_Rename_moves, os_Create_here. }
  unfold opened. rewrite (os_Open_true _ _ Hp), Hseek.
  eexists _, _. split; [reflexivity|]. simpl. split_and!.
  - rewrite !index_insert_eq. simpl. by rewrite ?index_insert_eq.
  - intros k Hk. by rewrite !lookup_insert_ne.
  - done.
  - apply os_RemoveAll_gone.
  - unfold os_RemoveAll. rewrite elem_of_difference, elem_of_singleton. tauto.
  - intros q Hq Hqp. unfold os_RemoveAll.
    rewrite elem_of_difference, elem_of_singleton, os_Rename_other by done.
    unfold os_Create. rewrite elem_of_union, elem_of_singleton. tauto.
  - rewrite total_size_insert, <- Hdel, total_size_delete. simpl. lia.
Qed.


(** X16.  A handle [Fetch] serves carries a finalizer on windows and none
    elsewhere.  Whatever the store and the disk are when the finalizer
    runs, it leaves every name but the handle's own as it finds it. *)
Theorem finalizer_touches_own_file_only fuel o cacheKey c d h c' d' :
  Fetch fuel o cacheKey c d = Some (Served h, c', d') →
  (finalizer h = None ↔ GOOS ≠ windows) ∧
  ∀ fin (c2 : cachedDownloader) (d2 : Disk) q,
    finalizer h = Some fin → q ≠ name h →
    (q ∈ run_finalizer fin c2 d2 ↔ q ∈ d2).
Proof.
  assert (Hfor : ∀ k t, finalizer h = finalizer_for k t (name h) →
    (finalizer h = None ↔ GOOS ≠ windows) ∧
    ∀ fin (c2 : cachedDownloader) (d2 : Disk) q,
      finalizer h = Some fin → q ≠ name h →
      (q ∈ run_finalizer fin c2 d2 ↔ q ∈ d2)).
  { intros k t ->. unfold finalizer_for. destruct GOOS.
    - split; [done|]. by intros fin c2 d2 q [=].
    - split; [by case_decide|]. intros fin c2 d2 q Hfin Hq.
      unfold run_finalizer, os_RemoveAll.
      case_decide; injection Hfin as <-; [|case_decide; [|done]];
        rewrite elem_of_difference, elem_of_singleton; tauto. }
  unfold Fetch. case_decide.
  - unfold fetchUncachedFile.
    destruct (ioutil_TempFile o _ _) as [destinationFile|]; [|done].
    destruct (Download o _); [done|].
    destruct GOOS eqn:Hos; intros [= <- _ _]; apply (Hfor "" destinationFile);
      simpl; unfold finalizer_for; rewrite Hos; [done|by rewrite decide_True].
  - unfold fetchCachedFile. simpl.
    destruct (ioutil_TempFile o _ _) as [tempFileName|]; [|done].
    destruct (transfer_and_open _ _ _ _ _ _ _) as [[[r1 c1] d1]|] eqn:Hto; [|done].
    simpl. intros [= -> _ _].
    apply transfer_and_open_served in Hto. by eapply Hfor.
Qed.

(** X17.  What a fetch has tracked, the next fetch revalidates and serves:
    after a fetch as in X15 the validators handed to the next [Download]
    are the ones that fetch stored, and if the origin then reports the
    resource unchanged, the handle served is on the same path, which the
    store goes on tracking with the same size and validators. *)
Theorem tracked_then_revalidated fuel o cacheKey c d tempFileName sz ci
    o2 tempFileName2 sz2 ci2 :
  cacheKey ≠ "" →
  fair o →
  ioutil_TempFile o (uncachedPath c) (md5_hex cacheKey ++ "-") = Some tempFileName →
  Download o (cachingInfoForCacheKey c (md5_hex cacheKey)) = DownloadDone true sz ci →
  ¬ (ETag ci = "" ∧ LastModified ci = "") →
  0 ≤ sz →
  0 ≤ total_size (delete (md5_hex cacheKey) (cachedFiles c)) →
  total_size (delete (md5_hex cacheKey) (cachedFiles c)) + sz ≤ maxSizeInBytes c →
  maxSizeInBytes c < 2 ^ 63 →
  Seek o = true →
  filepath_Join (cachedPath c) (filepath_Base tempFileName) ≠ tempFileName →
  ioutil_TempFile o2 (uncachedPath c) (md5_hex cacheKey ++ "-") = Some tempFileName2 →
  Download o2 ci = DownloadDone false sz2 ci2 →
  Seek o2 = true →
  ∃ h1 c1 d1 h2 c2 d2,
    Fetch fuel o cacheKey c d = Some (Served h1, c1, d1) ∧
    Fetch fuel o2 cacheKey c1 d1 = Some (Served h2, c2, d2) ∧
    name h2 = name h1 ∧
    index (cachedFiles c2) (md5_hex cacheKey)
      = mkCachedFile sz (time_Now o2 0) ci (name h1).
Proof.
  intros Hkey Hfair Htmp Hdl Hci Hsz Hpos Hroom Hmax Hseek Hp Htmp2 Hdl2 Hseek2.
  rewrite Fetch_cached by done. set (id := md5_hex cacheKey) in *.
  destruct (fetchCachedFile_tracks fuel o id c d tempFileName sz ci)
    as (c1 & d1 & -> & Hentry & _ & Hconf & _ & Hin & _); try done.
  set (p := filepath_Join (cachedPath c) (filepath_Base tempFileName)) in *.
  apply Hin in Hp.
  assert (Hup : uncachedPath c1 = uncachedPath c) by (by injection Hconf).
  eexists _, c1, d1, _, _, _. split; [reflexivity|].
  rewrite Fetch_cached by done. fold id.
  rewrite (fetchCachedFile_unchanged fuel o2 id c1 d1 tempFileName2 sz2 ci2);
    [|by rewrite Hup|by unfold cachingInfoForCacheKey; rewrite Hentry].
  unfold pathForCacheKey. rewrite Hentry. simpl.
  unfold opened. rewrite (os_Open_true p) by by apply os_Create_old.
  rewrite Hseek2. split; [reflexivity|]. split; [done|]. simpl.
  by rewrite index_insert_eq, Hentry.
Qed.

(** X18.  A resource too large for the cache cannot be revalidated: the
    fetch that finds it too large stores its validators and no path, so
    when the next fetch of a key the store did not hold before is told by
    the origin that the resource is unchanged, it has no file to open and
    returns an open failure. *)
Theorem oversized_then_unchanged_fails fuel o cacheKey c d tempFileName sz ci
    o2 tempFileName2 sz2 ci2 :
  cacheKey ≠ "" →
  cachedFiles c !! md5_hex cacheKey = None →
  "" ∉ d →
  ioutil_TempFile o (uncachedPath c) (md5_hex cacheKey ++ "-") = Some tempFileName →
  Download o (mkCachingInfo "" "") = DownloadDone true sz ci →
  ¬ (ETag ci = "" ∧ LastModified ci = "") →
  maxSizeInBytes c < sz →
  Seek o = true →
  ioutil_TempFile o2 (uncachedPath c) (md5_hex cacheKey ++ "-") = Some tempFileName2 →
  tempFileName2 ≠ "" →
  Download o2 ci = DownloadDone false sz2 ci2 →
  ∃ h1 c1 d1 c2 d2,
    Fetch fuel o cacheKey c d = Some (Served h1, c1, d1) ∧
    name h1 = tempFileName ∧
    Fetch fuel o2 cacheKey c1 d1 = Some (Failed OpenError, c2, d2).
Proof.
  intros Hkey Hnone Hempty Htmp Hdl Hci Hbig Hseek Htmp2 Hne2 Hdl2.
  rewrite Fetch_cached by done. set (id := md5_hex cacheKey) in *.
  assert (Hinfo : cachingInfoForCacheKey c id = mkCachingInfo "" "").
  { unfold cachingInfoForCacheKey. by rewrite (index_None _ _ Hnone). }
  rewrite (fetchCachedFile_cacheable fuel o id c d tempFileName sz ci)
    by (done || by rewrite Hinfo).
  set (c1 := setCachingInfoForCacheKey id ci
               (recordAccessForCacheKey (time_Now o 0) id c)).
  unfold moveFileIntoCache.
  destruct (Z.ltb_spec (maxSizeInBytes c1) sz) as [_|Hge]; [|simpl in Hge; lia].
  simpl. unfold opened at 1. rewrite os_Open_created, Hseek.
  assert (Hentry : index (cachedFiles c1) id
            = mkCachedFile 0 (time_Now o 0) ci "").
  { unfold c1. simpl. rewrite !index_insert_eq. simpl.
    by rewrite ?index_insert_eq, ?(index_None _ _ Hnone). }
  eexists _, c1, _, _, _. split; [reflexivity|]. split; [done|].
  rewrite Fetch_cached by done. fold id.
  rewrite (fetchCachedFile_unchanged fuel o2 id c1 _ tempFileName2 sz2 ci2);
    [|done|by unfold cachingInfoForCacheKey; rewrite Hentry].
  unfold pathForCacheKey. rewrite Hentry. simpl.
  unfold opened, os_Open. rewrite bool_decide_eq_false_2; [done|].
  unfold os_Create, os_RemoveAll.
  rewrite !elem_of_union, elem_of_difference, !elem_of_singleton,
    elem_of_union, elem_of_singleton.
  intros [?|[[?|?] ?]]; congruence.
Qed.

End FetchMore.

(** ** The further properties at work *)

Section MoreRuns.
Import Demo.

Ltac run := vm_compute; reflexivity.

(** A check that decides [strictly_oldest] on a given map. *)
Lemma strictly_oldest_check cacheKey k f (m : gmap string CachedFile) :
  m !! k = Some f →
  k ≠ cacheKey →
  forallb (λ '(k', f'),
             bool_decide (k' = cacheKey) || bool_decide (k' = k)
             || (access f <? access f'))
          (map_to_list m) = true →
  strictly_oldest cacheKey k f m.
Proof.
  intros Hk Hne Hall. split_and!; [done..|].
  intros k' f' Hk' Hne' Hnk.
  rewrite forallb_forall in Hall.
  specialize (Hall (k', f')). simpl in Hall.
  rewrite !orb_true_iff, !bool_decide_eq_true, Z.ltb_lt in Hall.
  destruct Hall as [[?|?]|?]; [|done..].
  apply list_elem_of_In. by apply elem_of_map_to_list.
Qed.

Lemma a_is_oldest :
  strictly_oldest "c" "a" (mkCachedFile 40 1 (tag "a1") "cache/a-1")
    (cachedFiles lru_store).
Proof. apply strictly_oldest_check; [run|done|run]. Qed.

Lemma world_fair t n dl : fair (world t n dl).
Proof. intros i m. reflexivity. Qed.

Lemma usedSpace_is_wrapped_total_witness :
  usedSpace_of "c" (map_to_list (cachedFiles lru_store))
  = int64_wrap (total_size (delete "c" (cachedFiles lru_store))).
Proof. apply usedSpace_is_wrapped_total. reflexivity. Defined.

Lemma oldest_is_minimal_witness :
  (oldest_of "c" 4 (map_to_list (cachedFiles lru_store))).1 ≤ 4.
Proof.
  apply (oldest_is_minimal "c" 4 (cachedFiles lru_store)). reflexivity.
Defined.

Lemma oldest_is_order_independent_witness :
  oldest_of "c" 4 (map_to_list (cachedFiles lru_store)) = (1, "a").
Proof.
  apply (oldest_is_order_independent "c" "a"
           (mkCachedFile 40 1 (tag "a1") "cache/a-1") (cachedFiles lru_store) 4
           (map_to_list (cachedFiles lru_store))
           (map_to_list (cachedFiles lru_store)));
    [apply a_is_oldest|simpl; lia|reflexivity|reflexivity].
Defined.

(** 90 bytes in use, 20 to place, capacity 100: ten turns are enough. *)
Lemma admission_returns_when_oldest_has_size_witness :
  ∃ p c' d',
    moveFileIntoCache (H := posix) 10 (world 4 "1" DownloadFailed)
      "c" "tmp/c-1" 20 lru_store lru_disk = Some (p, c', d').
Proof.
  apply (admission_returns_when_oldest_has_size (H := posix) 10
           (world 4 "1" DownloadFailed) "c" "tmp/c-1" 20 lru_store lru_disk
           "a" (mkCachedFile 40 1 (tag "a1") "cache/a-1")).
  - apply world_fair.
  - simpl. lia.
  - simpl. lia.
  - apply a_is_oldest.
  - simpl. lia.
  - intros n. simpl. lia.
  - by vm_compute.
  - vm_compute. lia.
Defined.

(** [k] fetched again: 10 bytes beside nothing. *)
Lemma admission_without_eviction_witness :
  ∃ c' d',
    moveFileIntoCache (H := posix) 0 (world 20 "2" DownloadFailed)
      "k" "tmp/k-2" 10 k_store (os_Create "tmp/k-2" k_disk)
    = Some ("cache/k-2", c', d') ∧
    pathForCacheKey c' "k" = "cache/k-2" ∧
    "cache/k-1" ∈ d'.
Proof.
  destruct (admission_without_eviction (H := posix) 0 (world 20 "2" DownloadFailed)
              "k" "tmp/k-2" 10 k_store (os_Create "tmp/k-2" k_disk))
    as (c' & d' & Hmove & Hentry & _ & _ & Hframe);
    [vm_compute; discriminate|vm_compute; discriminate|].
  exists c', d'. split_and!; [exact Hmove| |].
  - unfold pathForCacheKey. by rewrite Hentry.
  - apply Hframe; [done|done|]. by vm_compute.
Defined.

Lemma capacity_kept_without_eviction_witness :
  total_size (cachedFiles
    (with_cachedFiles k_store
       (<["k" := mkCachedFile 10 10 (tag "k1") "cache/k-2"]> (cachedFiles k_store))))
  ≤ 100.
Proof.
  eapply (capacity_kept_without_eviction (H := posix) (world 20 "2" DownloadFailed)
            "k" "tmp/k-2" 10 k_store (os_Create "tmp/k-2" k_disk)).
  - apply world_fair.
  - simpl. lia.
  - by vm_compute.
  - by vm_compute.
  - reflexivity.
Defined.

Lemma admission_frame_witness :
  "cache/b-1" ∈ os_Rename "tmp/c-1" "cache/c-1" lru_disk ↔ "cache/b-1" ∈ lru_disk.
Proof.
  eapply (admission_frame (H := posix) 1 (world 4 "1" DownloadFailed)
            "c" "tmp/c-1" 20 lru_store lru_disk "cache/c-1").
  - run.
  - done.
  - done.
  - done.
Defined.

Lemma Fetch_keeps_config_witness :
  config (recordAccessForCacheKey 30 "a" lru_store) = config lru_store.
Proof.
  eapply (Fetch_keeps_config (H := posix) 0 (world 30 "2" DownloadFailed)
            "a" lru_store lru_disk).
  reflexivity.
Defined.

(** A world in which the scratch directory takes no more files. *)
Lemma temp_failure_is_returned_witness :
  ∃ c',
    Fetch (H := posix) 0
      (mkOracle (λ i, 30 + Z.of_nat i) (λ _ m, map_to_list m) (λ _ _, None)
                (λ _, DownloadFailed) true)
      "a" lru_store lru_disk
    = Some (Failed TempFileError, c', lru_disk).
Proof.
  destruct (temp_failure_is_returned (H := posix) 0
              (mkOracle (λ i, 30 + Z.of_nat i) (λ _ m, map_to_list m) (λ _ _, None)
                        (λ _, DownloadFailed) true)
              "a" lru_store lru_disk) as (c' & Hfetch & _); [reflexivity|].
  by exists c'.
Defined.

(** The store has no entry for [z]; the transfer fails, on either
    platform. *)
Lemma transfer_failure_leaves_access_record_witness :
  (∃ c' d',
     Held.Fetch (H := posix) 0 (world 30 "2" DownloadFailed) "z" lru_store lru_disk
     = Some (Failed TransferError, c', d') ∧
     cachedFiles c' !! "z" = Some (mkCachedFile 0 30 (mkCachingInfo "" "") "") ∧
     "tmp/z-2" ∉ d') ∧
  (∃ c' d',
     Held.Fetch (H := win) 0 (world 30 "2" DownloadFailed) "z" lru_store lru_disk
     = Some (Failed TransferError, c', d') ∧
     "tmp/z-2" ∈ d').
Proof.
  split.
  - destruct (transfer_failure_leaves_access_record (H := posix) 0
                (world 30 "2" DownloadFailed) "z" lru_store lru_disk "tmp/z-2")
      as (c' & d' & Hfetch & _ & Hnew & _ & Htmp & _);
      [done|reflexivity|reflexivity|].
    exists c', d'. split_and!; [exact Hfetch|apply Hnew; run|].
    intros Hin. by apply Htmp in Hin.
  - destruct (transfer_failure_leaves_access_record (H := win) 0
                (world 30 "2" DownloadFailed) "z" lru_store lru_disk "tmp/z-2")
      as (c' & d' & Hfetch & _ & _ & _ & Htmp & _);
      [done|reflexivity|reflexivity|].
    exists c', d'. split; [exact Hfetch|]. by apply Htmp.
Defined.

(** [c] has an access record and no file; the origin says "unchanged". *)
Lemma unchanged_without_file_fails_witness :
  Fetch (H := posix) 0 (world 30 "2" (DownloadDone false 0 (tag "")))
    "c" lru_store lru_disk
  = Some (Failed OpenError, recordAccessForCacheKey 30 "c" lru_store,
          os_RemoveAll "tmp/c-2" (os_Create "tmp/c-2" lru_disk)).
Proof.
  apply (unchanged_without_file_fails (H := posix) 0
           (world 30 "2" (DownloadDone false 0 (tag "")))
           "c" lru_store lru_disk "tmp/c-2" 0 (tag ""));
    [done|reflexivity|reflexivity|by vm_compute|by vm_compute].
Defined.


Lemma finalizer_touches_own_file_only_witness :
  "cache/b-1" ∈ run_finalizer (RemoveIfStale "a" "cache/a-2") lru_store lru_disk
  ↔ "cache/b-1" ∈ lru_disk.
Proof.
  eapply (finalizer_touches_own_file_only (H := win) 1
            (world 30 "2" (DownloadDone true 7 (tag "a2")))
            "a" lru_store lru_disk
            (mkHandle "cache/a-2" (Some (RemoveIfStale "a" "cache/a-2")))).
  - run.
  - reflexivity.
  - done.
Defined.

Lemma tracked_then_revalidated_witness :
  ∃ h1 c1 d1 h2 c2 d2,
    Fetch (H := posix) 0 (world 30 "2" (DownloadDone true 7 (tag "a2")))
      "a" lru_store lru_disk = Some (Served h1, c1, d1) ∧
    Fetch (H := posix) 0 (world 40 "3" (DownloadDone false 0 (tag "")))
      "a" c1 d1 = Some (Served h2, c2, d2) ∧
    name h2 = name h1.
Proof.
  destruct (tracked_then_revalidated (H := posix) 0
              (world 30 "2" (DownloadDone true 7 (tag "a2")))
              "a" lru_store lru_disk "tmp/a-2" 7 (tag "a2")
              (world 40 "3" (DownloadDone false 0 (tag ""))) "tmp/a-3" 0 (tag ""))
    as (h1 & c1 & d1 & h2 & c2 & d2 & H1 & H2 & Hname & _);
    [done|apply world_fair|reflexivity|reflexivity|by intros [? _]
    |lia|by vm_compute|by vm_compute|simpl; lia|reflexivity|by vm_compute
    |reflexivity|reflexivity|reflexivity|].
  by exists h1, c1, d1, h2, c2, d2.
Defined.

Lemma oversized_then_unchanged_fails_witness :
  ∃ h1 c1 d1 c2 d2,
    Fetch (H := posix) 0 (world 30 "2" (DownloadDone true 150 (tag "z1")))
      "z" lru_store lru_disk = Some (Served h1, c1, d1) ∧
    Fetch (H := posix) 0 (world 40 "3" (DownloadDone false 0 (tag "")))
      "z" c1 d1 = Some (Failed OpenError, c2, d2).
Proof.
  destruct (oversized_then_unchanged_fails (H := posix) 0
              (world 30 "2" (DownloadDone true 150 (tag "z1")))
              "z" lru_store lru_disk "tmp/z-2" 150 (tag "z1")
              (world 40 "3" (DownloadDone false 0 (tag ""))) "tmp/z-3" 0 (tag ""))
    as (h1 & c1 & d1 & c2 & d2 & H1 & _ & H2);
    [done|run|by vm_compute|reflexivity|reflexivity|by intros [? _]
    |simpl; lia|reflexivity|reflexivity|done|reflexivity|].
  by exists h1, c1, d1, c2, d2.
Defined.

End MoreRuns.
